(** * Claim survey quality checker: a shallow embedding of [main.py]

    The rule engine of the checker (classification, the four audit rules,
    the per-case verdict and the institution summary) is embedded as Rocq
    functions, and the properties of its specification are proved about
    them.

    Conventions of the embedding:
    - a Python [str] is the list of its Unicode code points ([pystr]);
      [in], [set(...)], [strip] and [re] all work on code points;
    - a cell for which [pd.isna] holds (None, NaN, NaT) is [None], any
      other cell is [Some] of its text;
    - an operation that can raise returns in [Exc]; [try/except] is
      [try_except];
    - insertion-ordered dicts whose iteration order matters are
      association lists;
    - what the program leaves to pandas and NumPy is a parameter: the two
      timestamp converters, the sort behind [sort_values], the float
      format of a percentage, and the side taken when a rate is exactly
      halfway between two tenths. *)

From Stdlib Require Import String Ascii NArith ZArith QArith Qcanon Qabs DecimalNat Lqa.
From stdpp Require Import base option list sorting gmap.

Local Open Scope N_scope.

(** ** Python strings *)

Definition pychar := N.
Definition pystr := list N.

(** Source literals are UTF-8 text; [py] decodes one into its code points. *)
Fixpoint utf8_decode (bs : list N) : pystr :=
  match bs with
  | [] => []
  | b1 :: t1 =>
    if b1 <? 0x80 then b1 :: utf8_decode t1
    else match t1 with
    | [] => []
    | b2 :: t2 =>
      if b1 <? 0xE0
      then N.lor (N.shiftl (N.land b1 0x1F) 6) (N.land b2 0x3F) :: utf8_decode t2
      else match t2 with
      | [] => []
      | b3 :: t3 =>
        if b1 <? 0xF0
        then N.lor (N.shiftl (N.land b1 0x0F) 12)
               (N.lor (N.shiftl (N.land b2 0x3F) 6) (N.land b3 0x3F))
             :: utf8_decode t3
        else match t3 with
        | [] => []
        | b4 :: t4 =>
          N.lor (N.shiftl (N.land b1 0x07) 18)
            (N.lor (N.shiftl (N.land b2 0x3F) 12)
               (N.lor (N.shiftl (N.land b3 0x3F) 6) (N.land b4 0x3F)))
          :: utf8_decode t4
        end
      end
    end
  end.

Definition py (s : string) : pystr :=
  utf8_decode (map N_of_ascii (list_ascii_of_string s)).

Definition ord (a : ascii) : pychar := N_of_ascii a.

(** [needle in text]: some suffix of [text] starts with [needle]. *)
Fixpoint startswith (needle text : pystr) : bool :=
  match needle, text with
  | [], _ => true
  | _ :: _, [] => false
  | a :: n', b :: t' => (a =? b) && startswith n' t'
  end.

Fixpoint contains (needle text : pystr) : bool :=
  startswith needle text ||
  match text with
  | [] => false
  | _ :: t' => contains needle t'
  end.

(** [sep.join(parts)] *)
Fixpoint join (sep : pystr) (parts : list pystr) : pystr :=
  match parts with
  | [] => []
  | [p] => p
  | p :: rest => p ++ sep ++ join sep rest
  end.

(** [str(n)] for an integer. *)
Fixpoint digits_of_uint (d : Decimal.uint) : pystr :=
  match d with
  | Decimal.Nil => []
  | Decimal.D0 d' => ord "0" :: digits_of_uint d'
  | Decimal.D1 d' => ord "1" :: digits_of_uint d'
  | Decimal.D2 d' => ord "2" :: digits_of_uint d'
  | Decimal.D3 d' => ord "3" :: digits_of_uint d'
  | Decimal.D4 d' => ord "4" :: digits_of_uint d'
  | Decimal.D5 d' => ord "5" :: digits_of_uint d'
  | Decimal.D6 d' => ord "6" :: digits_of_uint d'
  | Decimal.D7 d' => ord "7" :: digits_of_uint d'
  | Decimal.D8 d' => ord "8" :: digits_of_uint d'
  | Decimal.D9 d' => ord "9" :: digits_of_uint d'
  end.

Definition str_of_nat (n : nat) : pystr := digits_of_uint (Nat.to_uint n).

Definition str_of_Z (z : Z) : pystr :=
  match Z.to_int z with
  | Decimal.Pos d => digits_of_uint d
  | Decimal.Neg d => ord "-" :: digits_of_uint d
  end.

(** ** Exceptions *)

Inductive exn := ReError | KeyError | ValueError | ZeroDivisionError | DateParseError.

Inductive Exc (A : Type) : Type :=
  | Ok (a : A)
  | Raise (e : exn).
Arguments Ok {A} a.
Arguments Raise {A} e.

Global Instance exc_ret : MRet Exc := fun A a => Ok a.
Global Instance exc_bind : MBind Exc := fun A B k m =>
  match m with
  | Ok a => k a
  | Raise e => Raise e
  end.

(** [try: body  except Exception: handler] *)
Definition try_except {A} (body : Exc A) (handler : exn -> Exc A) : Exc A :=
  match body with
  | Ok a => Ok a
  | Raise e => handler e
  end.

Definition raises {A} (m : Exc A) : Prop := exists e, m = Raise e.

(** ** The fragment of [re] used by the rule tables

    The patterns of the program use literals, [.], groups, [|], [?] and
    [{m,n}].  [re_compile] parses a pattern string of that fragment; any
    other pattern is rejected ([re.error], or syntax the program never
    uses).  [re.search] only reports whether a match exists, so matching
    is by membership in the pattern's language. *)

Inductive regex :=
  | RChar (c : pychar)                  (* a literal character *)
  | RAny                                (* [.]: any character but newline *)
  | REps
  | RSeq (r1 r2 : regex)
  | RAlt (r1 r2 : regex)
  | RRep (r : regex) (lo hi : nat).     (* [r{lo,hi}]; [r?] is [r{0,1}] *)

Definition newline : pychar := 10.

(** All the ways of matching between [lo] and [hi] copies of a pattern
    whose one-copy matcher is [f], as the remainders of [s]. *)
Fixpoint rep_match (f : pystr -> list pystr) (lo hi : nat) (s : pystr) : list pystr :=
  (match lo with O => [s] | S _ => [] end) ++
  match hi with
  | O => []
  | S hi' => flat_map (rep_match f (Nat.pred lo) hi') (f s)
  end.

(** [rmatch r s]: the remainders of [s] after each prefix of [s] that [r] matches. *)
Fixpoint rmatch (r : regex) (s : pystr) : list pystr :=
  match r with
  | RChar c =>
    match s with
    | x :: s' => if x =? c then [s'] else []
    | [] => []
    end
  | RAny =>
    match s with
    | x :: s' => if x =? newline then [] else [s']
    | [] => []
    end
  | REps => [s]
  | RSeq r1 r2 => flat_map (rmatch r2) (rmatch r1 s)
  | RAlt r1 r2 => rmatch r1 s ++ rmatch r2 s
  | RRep r1 lo hi => rep_match (rmatch r1) lo hi s
  end.

Definition match_here (r : regex) (s : pystr) : bool :=
  match rmatch r s with
  | [] => false
  | _ :: _ => true
  end.

(** A match may start at any position of the text, its end included. *)
Fixpoint search (r : regex) (text : pystr) : bool :=
  match_here r text ||
  match text with
  | [] => false
  | _ :: t' => search r t'
  end.

Definition is_digit (c : pychar) : bool := (ord "0" <=? c) && (c <=? ord "9").

Definition is_meta (c : pychar) : bool :=
  bool_decide (c ∈ map ord ["."; "^"; "$"; "*"; "+"; "?"; "{"; "}"; "["; "]"; "\"; "|"; "("; ")"]%char).

(** A run of decimal digits, as a number. *)
Fixpoint parse_nat (acc : nat) (s : pystr) : nat * pystr :=
  match s with
  | c :: s' =>
    if is_digit c then parse_nat (10 * acc + N.to_nat (c - ord "0")) s' else (acc, s)
  | [] => (acc, s)
  end.

(** An optional quantifier after the atom [a]: [?] or [{m,n}]. *)
Definition parse_quant (a : regex) (s : pystr) : option (regex * pystr) :=
  match s with
  | c :: s' =>
    if c =? ord "?" then Some (RRep a 0 1, s')
    else if c =? ord "{" then
      match s' with
      | d :: _ =>
        if is_digit d then
          let '(lo, s1) := parse_nat 0 s' in
          match s1 with
          | c1 :: (d2 :: _) as s2 =>
            if (c1 =? ord ",") && is_digit d2 then
              let '(hi, s3) := parse_nat 0 s2 in
              match s3 with
              | c3 :: s4 => if c3 =? ord "}" then Some (RRep a lo hi, s4) else None
              | [] => None
              end
            else None
          | _ => None
          end
        else None
      | [] => None
      end
    else Some (a, s)
  | [] => Some (a, s)
  end.

Fixpoint parse_alt (fuel : nat) (s : pystr) : option (regex * pystr) :=
  match fuel with
  | O => None
  | S fuel' =>
    '(r1, s1) ← parse_seq fuel' s;
    match s1 with
    | c :: s2 =>
      if c =? ord "|" then '(r2, s3) ← parse_alt fuel' s2; Some (RAlt r1 r2, s3)
      else Some (r1, s1)
    | [] => Some (r1, s1)
    end
  end
with parse_seq (fuel : nat) (s : pystr) : option (regex * pystr) :=
  match fuel with
  | O => None
  | S fuel' =>
    match s with
    | [] => Some (REps, s)
    | c :: _ =>
      if (c =? ord "|") || (c =? ord ")") then Some (REps, s)
      else
        '(a, s1) ← parse_atom fuel' s;
        '(q, s2) ← parse_quant a s1;
        '(r, s3) ← parse_seq fuel' s2;
        Some (RSeq q r, s3)
    end
  end
with parse_atom (fuel : nat) (s : pystr) : option (regex * pystr) :=
  match fuel with
  | O => None
  | S fuel' =>
    match s with
    | [] => None
    | c :: s1 =>
      if c =? ord "(" then
        '(r, s2) ← parse_alt fuel' s1;
        match s2 with
        | c2 :: s3 => if c2 =? ord ")" then Some (r, s3) else None
        | [] => None
        end
      else if c =? ord "." then Some (RAny, s1)
      else if is_meta c then None
      else Some (RChar c, s1)
    end
  end.

Definition re_compile (pattern : pystr) : option regex :=
  match parse_alt (2 * length pattern + 2) pattern with
  | Some (r, []) => Some r
  | _ => None
  end.

(** [re.search(pattern, text)], as the truth value of its result. *)
Definition re_search (pattern text : pystr) : Exc bool :=
  match re_compile pattern with
  | Some r => Ok (search r text)
  | None => Raise ReError
  end.

(** [s.replace(old, new)] for a non-empty [old]: occurrences are replaced
    from left to right and do not overlap. *)
Fixpoint drop_matched (old s : pystr) : option pystr :=
  match old, s with
  | [], _ => Some s
  | _ :: _, [] => None
  | a :: old', b :: s' => if a =? b then drop_matched old' s' else None
  end.

Fixpoint replace_fuel (fuel : nat) (old new s : pystr) : pystr :=
  match fuel with
  | O => s
  | S fuel' =>
    match drop_matched old s with
    | Some rest => new ++ replace_fuel fuel' old new rest
    | None =>
      match s with
      | [] => []
      | c :: s' => c :: replace_fuel fuel' old new s'
      end
    end
  end.

Definition replace (old new s : pystr) : pystr := replace_fuel (length s) old new s.

(** ** Cells and dictionaries *)

(** A text cell: [None] when [pd.isna] holds, else [Some] of [str(cell)]. *)
Definition cell := option pystr.

Fixpoint dict_lookup {V} (d : list (pystr * V)) (key : pystr) : option V :=
  match d with
  | [] => None
  | (k, v) :: d' => if decide (k = key) then Some v else dict_lookup d' key
  end.

(** [d[key]] *)
Definition dict_getitem {V} (d : list (pystr * V)) (key : pystr) : Exc V :=
  match dict_lookup d key with
  | Some v => Ok v
  | None => Raise KeyError
  end.

(** [d.get(key, default)] *)
Definition dict_get {V} (d : list (pystr * V)) (key : pystr) (default : V) : V :=
  match dict_lookup d key with
  | Some v => v
  | None => default
  end.

Definition dict_keys {V} (d : list (pystr * V)) : list pystr := fst <$> d.

(** ** The rule tables *)

Local Open Scope string_scope.

Definition OTHER : pystr := py "其他类".

Definition INSURANCE_CATEGORIES : list (pystr * list pystr) :=
  [ (py "雇主类", [py "雇主责任"]);
    (py "安责类", [py "安全生产责任"; py "建筑施工行业安全生产责任"; py "建工团意"]);
    (py "意外类", [py "意外险"]);
    (py "重疾类", [py "重大疾病"]);
    (py "财产类", [py "财产一切"; py "财产综合"; py "财产基本"; py "机器损坏"]);
    (py "工程类", [py "建工一切"; py "路桥工程"; py "安工一切"]);
    (py "公众类", [py "公众责任"]) ].

Definition CORE_ELEMENTS : list (pystr * list pystr) :=
  [ (py "雇主类", map py ["伤情"; "部位"; "医院"; "岗位"; "工种"; "工伤"; "劳动关系"; "分包"; "考勤"]);
    (py "安责类", map py ["伤情"; "部位"; "医院"; "岗位"; "工种"; "工伤"; "劳动关系"; "分包"; "考勤"]);
    (py "意外类", map py ["伤情"; "部位"; "医院"; "职业"]);
    (py "重疾类", map py ["诊断时间"; "疾病名称"; "疾病编码"; "既往病史"]);
    (py "财产类", map py ["标的类型"; "原因类型"; "维修方式"; "财务账册"; "残值"]);
    (py "工程类", map py ["工程名称"; "标的类型"; "原因类型"; "进度"; "维修"; "三者"]);
    (py "公众类", map py ["归属"; "标识"; "监控"; "三者"; "医疗"; "和解"; "赔偿"]);
    (py "其他类", map py ["损失类型"; "后续处理"]) ].

Definition MANDATORY_PATTERNS : list (pystr * pystr) :=
  [ (py "查勘时间", py "查勘.{0,3}时间|于.{0,10}(查勘|勘查)|查勘.{0,5}日期");
    (py "查勘地点", py "查勘.{0,3}地点|在.{0,10}(查勘|勘查)|现场位于");
    (py "查勘方式", py "现场|视频|核实|走访|电话|远程|到场");
    (py "出险时间", py "出险.{0,3}时间|事故.{0,3}时间|发生.{0,5}时间|于.{0,10}(出险|发生)");
    (py "出险地点", py "出险.{0,3}地点|事故.{0,3}地点|发生.{0,5}地点|位于.{0,10}发生") ].

Definition DELAY_KEYWORDS : list pystr :=
  map py ["延迟原因"; "原因"; "核实"; "属实"].

Definition INSTITUTION_ORDER : list pystr :=
  map py ["合肥"; "芜湖"; "蚌埠"; "淮南"; "马鞍山"; "淮北"; "铜陵"; "安庆"; "黄山";
          "滁州"; "阜阳"; "宿州"; "六安"; "亳州"; "池州"; "宣城"].

Local Close Scope string_scope.

(** ** Insurance classification *)

(** [for keyword in keywords: if keyword in text: return category] *)
Fixpoint any_keyword_in (keywords : list pystr) (text : pystr) : bool :=
  match keywords with
  | [] => false
  | keyword :: rest => if contains keyword text then true else any_keyword_in rest text
  end.

Fixpoint classify_scan (table : list (pystr * list pystr)) (text : pystr) : option pystr :=
  match table with
  | [] => None
  | (category, keywords) :: rest =>
    if any_keyword_in keywords text then Some category else classify_scan rest text
  end.

Definition classify_insurance (insurance_type : cell) : pystr :=
  match insurance_type with
  | None => OTHER
  | Some text =>
    match classify_scan INSURANCE_CATEGORIES text with
    | Some category => category
    | None => OTHER
    end
  end.

(** ** Rule 1: mandatory items *)

Fixpoint mandatory_loop (items : list (pystr * pystr)) (text : pystr)
    (missing : list pystr) : Exc (list pystr) :=
  match items with
  | [] => Ok missing
  | (item, pattern) :: rest =>
    found ← re_search pattern text;
    mandatory_loop rest text (if found : bool then missing else missing ++ [item])
  end.

Definition check_mandatory (survey_summary : cell) : Exc (bool * list pystr) :=
  match survey_summary with
  | None => Ok (false, dict_keys MANDATORY_PATTERNS)
  | Some text =>
    missing ← mandatory_loop MANDATORY_PATTERNS text [];
    Ok (bool_decide (length missing = 0%nat), missing)
  end.

(** ** Rule 3: core elements *)

(** [element.replace('类型', '.{0,2}类型?').replace('方式', '.{0,2}方式?')] *)
Definition fuzzy_pattern (element : pystr) : pystr :=
  replace (py "方式") (py ".{0,2}方式?")
    (replace (py "类型") (py ".{0,2}类型?") element).

Fixpoint core_loop (elements : list pystr) (text : pystr)
    (matched missing : list pystr) : Exc (list pystr * list pystr) :=
  match elements with
  | [] => Ok (matched, missing)
  | element :: rest =>
    found ← re_search (fuzzy_pattern element) text;
    if (found : bool) || contains element text
    then core_loop rest text (matched ++ [element]) missing
    else core_loop rest text matched (missing ++ [element])
  end.

Definition check_core_elements (category : pystr) (survey_summary : cell)
    : Exc (bool * nat * list pystr) :=
  match survey_summary with
  | None =>
    default ← dict_getitem CORE_ELEMENTS OTHER;
    let elements := dict_get CORE_ELEMENTS category default in
    Ok (false, 0%nat, elements)
  | Some text =>
    default ← dict_getitem CORE_ELEMENTS OTHER;
    let elements := dict_get CORE_ELEMENTS category default in
    '(matched, missing) ← core_loop elements text [] [];
    let min_required := Nat.min 3 (length elements) in
    let passed := bool_decide (min_required ≤ length matched)%nat in
    Ok (passed, length matched, missing)
  end.

(** ** Rule 4: overlap of the two summaries *)

(** The characters [str.strip()] removes: those for which [str.isspace] holds. *)
Definition is_space (c : pychar) : bool :=
  bool_decide (c ∈ [0x09; 0x0A; 0x0B; 0x0C; 0x0D; 0x1C; 0x1D; 0x1E; 0x1F; 0x20;
                    0x85; 0xA0; 0x1680; 0x2000; 0x2001; 0x2002; 0x2003; 0x2004;
                    0x2005; 0x2006; 0x2007; 0x2008; 0x2009; 0x200A; 0x2028;
                    0x2029; 0x202F; 0x205F; 0x3000]%N).

Fixpoint lstrip (s : pystr) : pystr :=
  match s with
  | [] => []
  | c :: s' => if is_space c then lstrip s' else s
  end.

Definition strip (s : pystr) : pystr := rev (lstrip (rev (lstrip s))).

(** [a / b] on integers.  The quotient is kept exact.  The program
    compares it with the binary64 constant 0.8, the double nearest to 4/5;
    for set sizes below 2^50 the rounded quotient is below that double
    exactly when the exact quotient is below 4/5 (a quotient other than
    4/5 is at least 1/(5b) away from it, far more than one rounding error),
    so the comparison is made on exact fractions. *)
Definition truediv (a b : nat) : Exc Qc :=
  if decide (b = 0%nat) then Raise ZeroDivisionError
  else Ok (Q2Qc (Z.of_nat a # Pos.of_nat b)).

Definition threshold : Qc := Q2Qc (4 # 5).

(** The binary64 value of the literal [0.8]. *)
Definition DOUBLE_0_8 : Q := 3602879701896397 # 4503599627370496.

Definition check_overlap (report_summary survey_summary : cell) : Exc (bool * Qc) :=
  match report_summary, survey_summary with
  | None, _ | _, None => Ok (true, 0%Qc)
  | Some report, Some survey =>
    let report_text := strip report in
    let survey_text := strip survey in
    match report_text, survey_text with
    | [], _ | _, [] => Ok (true, 0%Qc)
    | _, _ =>
      let report_chars : gset pychar := list_to_set report_text in
      let survey_chars : gset pychar := list_to_set survey_text in
      let overlap_chars := report_chars ∩ survey_chars in
      let max_len := Nat.max (size report_chars) (size survey_chars) in
      overlap_rate ←
        (if decide (0 < max_len)%nat then truediv (size overlap_chars) max_len
         else Ok 0%Qc);
      Ok (bool_decide (overlap_rate < threshold)%Qc, overlap_rate)
    end
  end.

(** ** Rule 2: reporting delay, and the evaluation of a case

    A timestamp of pandas is a time, in nanoseconds since the epoch, or
    not-a-time.  The two converters of pandas are parameters:
    [to_datetime] parses a string and [Timestamp] converts any other cell
    value; either may raise, and either may return not-a-time without
    raising, as [to_datetime] does on the empty text and on the text
    ['NaT'].  Times are of one kind and their difference is exact: two
    times that pandas refuses to subtract (one with a time zone and one
    without, or a difference beyond its 64-bit range) raise inside the
    [try] block and get the outcome of the handler; that path is not in
    the model.  [format_percent] stands for the float format [{:.1%}]. *)

Inductive datetime :=
  | NaT               (* not a time *)
  | Time (ns : Z).    (* nanoseconds since the epoch *)

Inductive timecell (obj : Type) :=
  | TimeNa                 (* [pd.isna] holds *)
  | TimeStr (s : pystr)    (* a string *)
  | TimeObj (v : obj).     (* any other value *)
Arguments TimeNa {obj}.
Arguments TimeStr {obj} s.
Arguments TimeObj {obj} v.

Definition time_isna {obj} (c : timecell obj) : bool :=
  match c with
  | TimeNa => true
  | _ => false
  end.

Definition NS_PER_DAY : Z := 86400000000000.

(** [report_dt - accident_dt]: the difference in nanoseconds; not-a-time
    ([None]) as soon as one of the two is. *)
Definition datetime_sub (a b : datetime) : option Z :=
  match a, b with
  | Time x, Time y => Some (x - y)%Z
  | _, _ => None
  end.

(** [Timedelta.days]: whole days, rounded towards minus infinity. *)
Definition timedelta_days (delta : Z) : Z := (delta `div` NS_PER_DAY)%Z.

(** [.days] of a difference: an integer, or the float [nan] ([None]) when
    the difference is not-a-time. *)
Definition days (delta : option Z) : option Z := timedelta_days <$> delta.

(** [delay_days <= n]: every comparison with [nan] is false. *)
Definition days_le (delay_days : option Z) (n : Z) : bool :=
  match delay_days with
  | Some d => bool_decide (d ≤ n)%Z
  | None => false
  end.

(** [f'{delay_days}'] *)
Definition str_of_days (delay_days : option Z) : pystr :=
  match delay_days with
  | Some d => str_of_Z d
  | None => py "nan"
  end.

Record CaseRecord (obj : Type) := {
  row_insurance_type : cell;
  row_accident_time : timecell obj;
  row_report_time : timecell obj;
  row_report_summary : cell;
  row_survey_summary : cell
}.
Arguments row_insurance_type {obj} _.
Arguments row_accident_time {obj} _.
Arguments row_report_time {obj} _.
Arguments row_report_summary {obj} _.
Arguments row_survey_summary {obj} _.

Definition QUALIFIED : pystr := py "合格".
Definition UNQUALIFIED : pystr := py "不合格".

Section Engine.

Context {obj : Type}.
Variable to_datetime : pystr -> Exc datetime.
Variable Timestamp : obj -> Exc datetime.
Variable format_percent : Qc -> pystr.

(** The conversion of a cell that is not NA (NA cells return earlier). *)
Definition convert_time (c : timecell obj) : Exc datetime :=
  match c with
  | TimeStr s => to_datetime s
  | TimeObj v => Timestamp v
  | TimeNa => Raise ValueError
  end.

Definition delay_reason_absent (delay_days : option Z) : pystr :=
  py "报案延迟" ++ str_of_days delay_days ++ py "天，查勘摘要未填写延迟原因".

Definition delay_reason_nokeyword (delay_days : option Z) : pystr :=
  py "报案延迟" ++ str_of_days delay_days ++ py "天，查勘摘要未包含延迟原因说明".

Definition check_delay_body (accident_time report_time : timecell obj)
    (survey_summary : cell) : Exc (bool * bool * pystr) :=
  if time_isna accident_time || time_isna report_time then Ok (false, true, [])
  else
    accident_dt ← convert_time accident_time;
    report_dt ← convert_time report_time;
    let delay_days := days (datetime_sub report_dt accident_dt) in
    if days_le delay_days 7 then Ok (false, true, [])
    else
      match survey_summary with
      | None => Ok (true, false, delay_reason_absent delay_days)
      | Some text =>
        if any_keyword_in DELAY_KEYWORDS text then Ok (true, true, [])
        else Ok (true, false, delay_reason_nokeyword delay_days)
      end.

Definition check_delay (accident_time report_time : timecell obj)
    (survey_summary : cell) : Exc (bool * bool * pystr) :=
  try_except (check_delay_body accident_time report_time survey_summary)
    (fun _ => Ok (false, true, [])).

Definition mandatory_reason (mandatory_missing : list pystr) : pystr :=
  py "必填项缺失：" ++ join (py ", ") mandatory_missing.

Definition core_reason (min_required core_count : nat) (core_missing : list pystr) : pystr :=
  py "核心要素不足（需" ++ str_of_nat min_required ++ py "个，仅" ++ str_of_nat core_count
  ++ py "个），建议补充：" ++ join (py ", ") (take 3 core_missing).

Definition overlap_reason (overlap_rate : Qc) : pystr :=
  py "查勘摘要与报案摘要重合率过高（" ++ format_percent overlap_rate
  ++ py "），缺乏独立调查信息".

(** The list [reasons] of [evaluate_case] when it reaches the verdict. *)
Definition evaluate_reasons (row : CaseRecord obj) : Exc (list pystr) :=
  let reasons : list pystr := [] in
  let insurance_type := row_insurance_type row in
  let accident_time := row_accident_time row in
  let report_time := row_report_time row in
  let report_summary := row_report_summary row in
  let survey_summary := row_survey_summary row in
  let category := classify_insurance insurance_type in
  '(mandatory_pass, mandatory_missing) ← check_mandatory survey_summary;
  let reasons :=
    if negb mandatory_pass then reasons ++ [mandatory_reason mandatory_missing]
    else reasons in
  '(delay_triggered, delay_pass, delay_reason) ←
    check_delay accident_time report_time survey_summary;
  let reasons :=
    if delay_triggered && negb delay_pass then reasons ++ [delay_reason]
    else reasons in
  '(core_pass, core_count, core_missing) ← check_core_elements category survey_summary;
  reasons ←
    (if negb core_pass then
       default ← dict_getitem CORE_ELEMENTS OTHER;
       let min_required :=
         Nat.min 3 (length (dict_get CORE_ELEMENTS category default)) in
       Ok (reasons ++ [core_reason min_required core_count core_missing])
     else Ok reasons);
  '(overlap_pass, overlap_rate) ← check_overlap report_summary survey_summary;
  let reasons :=
    if negb overlap_pass then reasons ++ [overlap_reason overlap_rate]
    else reasons in
  Ok reasons.

Definition evaluate_case (row : CaseRecord obj) : Exc (pystr * pystr) :=
  reasons ← evaluate_reasons row;
  match reasons with
  | _ :: _ => Ok (UNQUALIFIED, join (py "；") reasons)
  | [] => Ok (QUALIFIED, [])
  end.

End Engine.

(** ** The institution summary *)

(** A case after evaluation: its institution cell and its verdict text. *)
Record EvaluatedCase := {
  case_institution : cell;
  case_verdict : pystr
}.

Record SummaryRow := {
  sum_institution : pystr;
  sum_total : nat;
  sum_qualified : nat;
  sum_rate : pystr
}.

(** The order of Python strings: lexicographic on code points. *)
Fixpoint str_leb (a b : pystr) : bool :=
  match a, b with
  | [], _ => true
  | _ :: _, [] => false
  | x :: a', y :: b' => if x <? y then true else if x =? y then str_leb a' b' else false
  end.

Definition str_le (a b : pystr) : Prop := str_leb a b = true.

Global Instance str_le_dec : RelDecision str_le.
Proof. intros a b. unfold str_le. apply _. Defined.

(** [df.groupby('机构')]: the groups are the distinct institutions that
    are not NA, in ascending order of the key. *)
Definition groupby_keys (df : list EvaluatedCase) : list pystr :=
  merge_sort str_le (remove_dups (omap case_institution df)).

Definition group_of (df : list EvaluatedCase) (key : pystr) : list EvaluatedCase :=
  filter (fun c => case_institution c = Some key) df.

(** ['count'] of the verdict column and [(x == '合格').sum()]. *)
Definition count_cases (group : list EvaluatedCase) : nat := length group.

Definition count_qualified (group : list EvaluatedCase) : nat :=
  length (filter (fun c => case_verdict c = QUALIFIED) group).

(** [INSTITUTION_ORDER.index(institution)] *)
Fixpoint list_index (l : list pystr) (x : pystr) : Exc nat :=
  match l with
  | [] => Raise ValueError
  | y :: l' => if decide (y = x) then Ok 0%nat else i ← list_index l' x; Ok (S i)
  end.

Definition sort_key (institution : pystr) : nat :=
  match list_index INSTITUTION_ORDER institution with
  | Ok i => i
  | Raise _ => length INSTITUTION_ORDER
  end.

(** A rate with one decimal, given in tenths of a percent. *)
Definition render_tenths (n : nat) : pystr :=
  str_of_nat (n / 10) ++ [ord "."] ++ str_of_nat (n mod 10).

(** [q / t * 100] rounded to one decimal, in tenths of a percent: the
    nearest tenth of the exact quotient.  The program computes the quotient
    in binary64; for any table that fits in memory the rounding error is
    far smaller than the distance of a quotient from the midpoint of two
    tenths unless the quotient is such a midpoint, and there the side
    taken depends on the binary64 value: [tie_up] stands for that choice. *)
Definition nearest_tenth (tie_up : nat -> nat -> bool) (q t : nat) : nat :=
  let n := (1000 * q / t)%nat in
  let r := (1000 * q mod t)%nat in
  if decide (2 * r < t)%nat then n
  else if decide (t < 2 * r)%nat then S n
  else if tie_up q t then S n else n.

Section Summary.

(** [Series.round(1)] and the format [.1f] at a midpoint. *)
Variable round_tie_up : nat -> nat -> bool.
Variable format_tie_up : nat -> nat -> bool.

(** [sort_values] uses the default sort of NumPy, which is not stable: it
    returns the rows in ascending order of the key and promises nothing on
    rows of equal key.  The sort is a parameter; what is assumed of it is
    [sort_contract] below. *)
Variable sort_values : list (nat * SummaryRow) -> list (nat * SummaryRow).

(** [(qualified / total * 100).round(1).astype(str) + '%'] on a row. *)
Definition series_rate (q t : nat) : pystr :=
  match t with
  | O => py "nan" ++ py "%"    (* 0/0 in a Series; no group is empty *)
  | S _ => render_tenths (nearest_tenth round_tie_up q t) ++ py "%"
  end.

Definition group_row (df : list EvaluatedCase) (key : pystr) : SummaryRow :=
  let group := group_of df key in
  {| sum_institution := key;
     sum_total := count_cases group;
     sum_qualified := count_qualified group;
     sum_rate := series_rate (count_qualified group) (count_cases group) |}.

Definition TOTAL_LABEL : pystr := py "合计".

Definition sorted_groups (df : list EvaluatedCase) : list SummaryRow :=
  let summary := group_row df <$> groupby_keys df in
  let keyed := (fun row => (sort_key (sum_institution row), row)) <$> summary in
  snd <$> sort_values keyed.

(** The grand total.  On a summary with at least one group the two sums
    are sums of integers.  On a summary without groups (no case of the
    batch has an institution) both columns are empty: the sum of the
    counted column is the integer 0, which selects the rate ["0%"], while
    the sum of the column that the lambda aggregate produced depends on
    the type pandas gave to that empty column (the integer 0, or the empty
    text for a column of strings).  The row below has 0 there, the sum of
    no counts; it follows the program cell by cell on every summary with
    a group. *)
Definition total_row (summary : list SummaryRow) : SummaryRow :=
  let total_cases := sum_list (sum_total <$> summary) in
  let total_qualified := sum_list (sum_qualified <$> summary) in
  let total_rate :=
    if decide (0 < total_cases)%nat
    then render_tenths (nearest_tenth format_tie_up total_qualified total_cases) ++ py "%"
    else py "0%" in
  {| sum_institution := TOTAL_LABEL;
     sum_total := total_cases;
     sum_qualified := total_qualified;
     sum_rate := total_rate |}.

Definition create_summary_sheet (df : list EvaluatedCase) : list SummaryRow :=
  let summary := sorted_groups df in
  summary ++ [total_row summary].

End Summary.

(** A sort that meets the contract of [sort_values]. *)
Definition key_le (a b : nat * SummaryRow) : Prop := (a.1 ≤ b.1)%nat.

Global Instance key_le_dec : RelDecision key_le.
Proof. intros a b. unfold key_le. apply _. Defined.

Definition stable_sort_values (l : list (nat * SummaryRow)) : list (nat * SummaryRow) :=
  merge_sort key_le l.

(** ** Notions used to state the properties *)

Local Close Scope N_scope.

(** [needle] occurs in [text] as a substring. *)
Definition substring (needle text : pystr) : Prop :=
  exists pre post, text = pre ++ needle ++ post.

(** The language of a pattern. *)
Inductive matches : regex -> pystr -> Prop :=
  | matches_char c : matches (RChar c) [c]
  | matches_any c : c <> newline -> matches RAny [c]
  | matches_eps : matches REps []
  | matches_seq r1 r2 w1 w2 :
      matches r1 w1 -> matches r2 w2 -> matches (RSeq r1 r2) (w1 ++ w2)
  | matches_alt_l r1 r2 w : matches r1 w -> matches (RAlt r1 r2) w
  | matches_alt_r r1 r2 w : matches r2 w -> matches (RAlt r1 r2) w
  | matches_rep_stop r hi : matches (RRep r 0 hi) []
  | matches_rep_step r lo hi w1 w2 :
      matches r w1 -> matches (RRep r (Nat.pred lo) hi) w2 ->
      matches (RRep r lo (S hi)) (w1 ++ w2).

(** Some substring of [text] is in the language of [r]. *)
Definition occurs (r : regex) (text : pystr) : Prop :=
  exists pre w post, text = pre ++ w ++ post /\ matches r w.

(** The pattern string compiles and matches somewhere in [text]. *)
Definition pattern_found (pattern text : pystr) : Prop :=
  exists r, re_compile pattern = Some r /\ occurs r text.

(** The pattern of a literal string, in the shape the parser builds. *)
Definition lit_then (s : pystr) (r : regex) : regex :=
  foldr (fun c r' => RSeq (RChar c) r') r s.

Definition lit_regex (s : pystr) : regex := lit_then s REps.

(** The relaxed pattern of an element [stem ++ [c1; c2]]: the stem, a gap
    of at most two characters, [c1], and optionally [c2]. *)
Definition relaxed_regex (stem : pystr) (c1 c2 : pychar) : regex :=
  lit_then stem
    (RSeq (RRep RAny 0 2) (RSeq (RChar c1) (RSeq (RRep (RChar c2) 0 1) REps))).

Definition SUFFIXES : list pystr := [py "类型"; py "方式"].

(** An item is reported missing when the search for its pattern does not
    return a match. *)
Definition item_missing (text : pystr) (entry : pystr * pystr) : bool :=
  match re_search entry.2 text with
  | Ok true => false
  | _ => true
  end.

Global Instance regex_eq_dec : EqDecision regex.
Proof. solve_decision. Defined.

(** An element [stem ++ [c1; c2]] whose last two characters are one of
    the suffixes, split into its three parts. *)
Definition split_suffix (element : pystr) : option (pystr * pychar * pychar) :=
  match rev element with
  | c2 :: c1 :: rstem =>
    if decide ([c1; c2] ∈ SUFFIXES) then Some (rev rstem, c1, c2) else None
  | _ => None
  end.

(** The pattern an element is searched with, by its shape. *)
Definition element_regex (element : pystr) : regex :=
  match split_suffix element with
  | Some (stem, c1, c2) => relaxed_regex stem c1 c2
  | None => lit_regex element
  end.

(** The relaxed match of the program: the element is a stem and a
    suffix, and the text has the stem, at most two characters other than
    a newline, and the first character of the suffix. *)
Definition relaxed_occurs (element text : pystr) : Prop :=
  exists stem c1 c2 gap,
    element = stem ++ [c1; c2] /\ [c1; c2] ∈ SUFFIXES /\
    length gap ≤ 2 /\ (newline ∉ gap) /\ substring (stem ++ gap ++ [c1]) text.

(** An element counts as found in a text when the loop of
    [check_core_elements] appends it to [matched]. *)
Definition element_found (element text : pystr) : bool :=
  match re_search (fuzzy_pattern element) text with
  | Ok found => found || contains element text
  | Raise _ => false
  end.

(** The element list a category selects. *)
Definition elements_of (category : pystr) : list pystr :=
  dict_get CORE_ELEMENTS category (default [] (dict_lookup CORE_ELEMENTS OTHER)).

(** The relaxed match in the words of the specification: after the stem,
    a bounded gap and then the whole suffix, which is optional. *)
Definition spec_relaxed_regex (gap : nat) (stem suffix : pystr) : regex :=
  lit_then stem (RSeq (RRep RAny 0 gap) (RRep (lit_regex suffix) 0 1)).

Definition spec_element_found (gap : nat) (element text : pystr) : bool :=
  contains element text ||
  existsb (fun suffix =>
    match drop_matched (rev suffix) (rev element) with
    | Some rstem => search (spec_relaxed_regex gap (rev rstem) suffix) text
    | None => false
    end) SUFFIXES.

Definition spec_matched_count (gap : nat) (category text : pystr) : nat :=
  length (filter (fun e => spec_element_found gap e text = true) (elements_of category)).

(** The fraction [a / b]. *)
Definition ratio (a b : nat) : Qc := (Qc_of_Z (Z.of_nat a) / Qc_of_Z (Z.of_nat b))%Qc.

(** The sets of distinct characters of a text, and the overlap rate of two texts. *)
Definition charset (text : pystr) : gset pychar := list_to_set text.

Definition overlap_rate_of (report_text survey_text : pystr) : Qc :=
  ratio (size (charset report_text ∩ charset survey_text))
        (Nat.max (size (charset report_text)) (size (charset survey_text))).

(** The delay rule fails only when it is triggered and not passed. *)
Definition delay_fails (outcome : bool * bool * pystr) : bool :=
  let '(triggered, passed, _) := outcome in triggered && negb passed.

(** Institutions of the priority list, and the others. *)
Definition listed (institution : pystr) : Prop := institution ∈ INSTITUTION_ORDER.

(** The unlisted institutions of a batch in the order of their first
    occurrence in the input. *)
Fixpoint first_seen (seen l : list pystr) : list pystr :=
  match l with
  | [] => []
  | x :: l' =>
    if decide (x ∈ seen) then first_seen seen l' else x :: first_seen (x :: seen) l'
  end.

Definition first_encounter_unlisted (df : list EvaluatedCase) : list pystr :=
  filter (fun i => ¬ listed i) (first_seen [] (omap case_institution df)).

(** The unlisted institutions of a summary, in the order of its rows
    (the final row is the grand total and is left out). *)
Definition summary_unlisted (summary : list SummaryRow) : list pystr :=
  filter (fun i => ¬ listed i)
    (sum_institution <$> take (length summary - 1) summary).

(** A sort meets the contract of [sort_values]. *)
Definition sort_contract (sort_values : list (nat * SummaryRow) -> list (nat * SummaryRow)) : Prop :=
  (forall l, sort_values l ≡ₚ l) /\
  (forall l, Sorted (fun a b => a.1 ≤ b.1) (sort_values l)).

(** Two batches with the same two unlisted institutions, met in opposite orders. *)
Definition case_of (institution verdict : string) : EvaluatedCase :=
  {| case_institution := Some (py institution); case_verdict := py verdict |}.

Definition batch_jia_yi : list EvaluatedCase := [case_of "甲" "合格"; case_of "乙" "合格"].
Definition batch_yi_jia : list EvaluatedCase := [case_of "乙" "合格"; case_of "甲" "合格"].

(** The cases of an institution in a batch, and the qualified ones among them. *)
Definition cases_of (df : list EvaluatedCase) (institution : pystr) : nat :=
  length (filter (fun c => case_institution c = Some institution) df).

Definition qualified_of (df : list EvaluatedCase) (institution : pystr) : nat :=
  length (filter (fun c => case_institution c = Some institution /\ case_verdict c = QUALIFIED) df).

(** A rate string with one decimal: digits, a point, one digit, a percent sign. *)
Definition one_decimal_percent (s : pystr) : Prop :=
  exists int_part d,
    s = int_part ++ [ord "."; d; ord "%"] /\
    int_part <> [] /\ Forall (fun c => is_digit c = true) int_part /\ is_digit d = true.

(** [n] tenths of a percent is a nearest tenth to [q / t * 100]. *)
Definition is_nearest_tenth (n q t : nat) : Prop :=
  2 * n * t ≤ 2000 * q + t /\ 2000 * q ≤ 2 * n * t + t.

(** Converters for concrete runs: the empty text and the text ['NaT'] are
    read as not-a-time, as pandas reads them; a text of decimal digits is
    read as a day number; any other text is rejected. *)
Definition day_to_datetime (s : pystr) : Exc datetime :=
  if decide (s = [] \/ s = py "NaT") then Ok NaT
  else
    match parse_nat 0 s with
    | (n, []) => Ok (Time (Z.of_nat n * NS_PER_DAY))
    | _ => Raise DateParseError
    end.

Definition ns_Timestamp (v : Z) : Exc datetime := Ok (Time v).

(** A case of the property category, reported nine days after the accident. *)
Definition sample_row (survey : string) : CaseRecord Z :=
  {| row_insurance_type := Some (py "财产一切险");
     row_accident_time := TimeStr (py "1");
     row_report_time := TimeStr (py "10");
     row_report_summary := Some (py "仓库起火，货物受损");
     row_survey_summary := Some (py survey) |}.

Definition percent_truncated (rate : Qc) : pystr :=
  let n := (1000 * Qnum rate / Zpos (Qden rate))%Z in
  str_of_Z (n / 10) ++ [ord "."] ++ str_of_Z (n mod 10) ++ [ord "%"].

(** ** The batch run of [main]

    Between reading the input table and writing the two output tables
    [main] evaluates every row, adds the verdict, the reasons and the
    category to it, builds the summary, and counts the cases for the
    closing message.  Reading, writing and printing are left out. *)

(** A row of the input table: the institution cell and the fields that
    [evaluate_case] reads. *)
Record InputRow (obj : Type) := {
  in_institution : cell;
  in_case : CaseRecord obj
}.
Arguments in_institution {obj} _.
Arguments in_case {obj} _.

(** A row of the case table: the input row and the three added columns. *)
Record OutputRow (obj : Type) := {
  out_input : InputRow obj;
  out_verdict : pystr;
  out_reason : pystr;
  out_category : pystr
}.
Arguments out_input {obj} _.
Arguments out_verdict {obj} _.
Arguments out_reason {obj} _.
Arguments out_category {obj} _.

(** The two columns of the case table that the summary reads. *)
Definition summary_input {obj} (row : OutputRow obj) : EvaluatedCase :=
  {| case_institution := in_institution (out_input row);
     case_verdict := out_verdict row |}.

Section Batch.

Context {obj : Type}.
Variable to_datetime : pystr -> Exc datetime.
Variable Timestamp : obj -> Exc datetime.
Variable format_percent : Qc -> pystr.
Variable round_tie_up : nat -> nat -> bool.
Variable format_tie_up : nat -> nat -> bool.
Variable sort_values : list (nat * SummaryRow) -> list (nat * SummaryRow).

(** [df.apply(evaluate_case, axis=1)] and the three new columns. *)
Fixpoint evaluate_rows (df : list (InputRow obj)) : Exc (list (OutputRow obj)) :=
  match df with
  | [] => Ok []
  | row :: rest =>
    '(verdict, reason) ← evaluate_case to_datetime Timestamp format_percent (in_case row);
    rows ← evaluate_rows rest;
    Ok ({| out_input := row;
           out_verdict := verdict;
           out_reason := reason;
           out_category := classify_insurance (row_insurance_type (in_case row)) |}
        :: rows)
  end.

(** The summary table and the case table that [main] writes. *)
Definition main_tables (df : list (InputRow obj))
    : Exc (list SummaryRow * list (OutputRow obj)) :=
  cases ← evaluate_rows df;
  let summary_df :=
    create_summary_sheet round_tie_up format_tie_up sort_values (summary_input <$> cases) in
  Ok (summary_df, cases).

(** [total] and [qualified] of the closing message. *)
Definition main_counts (cases : list (OutputRow obj)) : nat * nat :=
  let total := length cases in
  let qualified := length (filter (fun row => out_verdict row = QUALIFIED) cases) in
  (total, qualified).

End Batch.

(** ** The name of the output file *)

(** [s.rfind(c)]: the index of the last occurrence. *)
Fixpoint rfind (c : pychar) (s : pystr) : option nat :=
  match s with
  | [] => None
  | x :: s' =>
    match rfind c s' with
    | Some i => Some (S i)
    | None => if (x =? c)%N then Some 0 else None
    end
  end.

(** [PurePath.stem]: the name without its last suffix; a leading dot and
    a trailing dot start no suffix.  (Versions of pathlib differ on the
    trailing dot; [output_never_input] holds under either rule.) *)
Definition path_stem (name : pystr) : pystr :=
  match rfind (ord ".") name with
  | Some i =>
    if decide (0 < i /\ i < length name - 1) then take i name else name
  | None => name
  end.

(** The name of [input_file.parent / f"判定结果_{input_file.stem}.xlsx"],
    which lies in the directory of the input file. *)
Definition output_name (input_name : pystr) : pystr :=
  py "判定结果_" ++ path_stem input_name ++ py ".xlsx".

(** ** Column widths of [style_excel] *)

(** The value of a worksheet cell, as far as the width computation looks
    at it: its truth value and its [str]. *)
Inductive xl_value :=
  | XlNone                                  (* an empty cell *)
  | XlText (s : pystr)
  | XlInt (z : Z)
  | XlOther (truthy : bool) (text : pystr). (* any other value *)

Definition xl_truthy (v : xl_value) : bool :=
  match v with
  | XlNone => false
  | XlText s => match s with [] => false | _ :: _ => true end
  | XlInt z => negb (z =? 0)%Z
  | XlOther truthy _ => truthy
  end.

Definition xl_str (v : xl_value) : pystr :=
  match v with
  | XlNone => py "None"
  | XlText s => s
  | XlInt z => str_of_Z z
  | XlOther _ text => text
  end.

(** [len(str(cell.value)) if cell.value else 0] *)
Definition cell_length (v : xl_value) : nat :=
  if xl_truthy v then length (xl_str v) else 0.

(** The loop over the cells of a column.  ([str] and the truth value of
    such values do not raise, so the handler of the loop is never entered.) *)
Fixpoint column_max_length (column : list xl_value) (max_length : nat) : nat :=
  match column with
  | [] => max_length
  | value :: rest =>
    let cell_length := cell_length value in
    column_max_length rest
      (if decide (max_length < cell_length) then cell_length else max_length)
  end.

Definition adjusted_width (column : list xl_value) : nat :=
  Nat.min (column_max_length column 0 + 2) 50.

(** ** Notions used to state further properties *)

(** The cases of a batch that have an institution, and the qualified ones
    among them. *)
Definition with_institution (df : list EvaluatedCase) : list EvaluatedCase :=
  filter (fun c => is_Some (case_institution c)) df.

Definition qualified_cases (df : list EvaluatedCase) : list EvaluatedCase :=
  filter (fun c => case_verdict c = QUALIFIED) df.


(** The category table without the keyword ['建筑施工行业安全生产责任']. *)
Definition SHORT_INSURANCE_CATEGORIES : list (pystr * list pystr) :=
  [ (py "雇主类", [py "雇主责任"]);
    (py "安责类", [py "安全生产责任"; py "建工团意"]);
    (py "意外类", [py "意外险"]);
    (py "重疾类", [py "重大疾病"]);
    (py "财产类", [py "财产一切"; py "财产综合"; py "财产基本"; py "机器损坏"]);
    (py "工程类", [py "建工一切"; py "路桥工程"; py "安工一切"]);
    (py "公众类", [py "公众责任"]) ].

(** A text made of whitespace only. *)
Definition all_space (s : pystr) : Prop := Forall (fun c => is_space c = true) s.

(** An input row for concrete runs. *)
Definition sample_input (institution : option string) (survey : string) : InputRow Z :=
  {| in_institution := py <$> institution; in_case := sample_row survey |}.

(** * Properties *)

Lemma startswith_spec needle text :
  startswith needle text = true <-> exists post, text = needle ++ post.
Proof.
  revert text. induction needle as [|a needle IH]; intros [|b text]; simpl.
  - split; [by exists [] | done].
  - split; [by eexists | done].
  - split; [done | by intros [post ?]].
  - rewrite andb_true_iff, N.eqb_eq, IH. split.
    + intros [-> [post ->]]. by exists post.
    + intros [post [= -> ->]]. eauto.
Qed.

Lemma contains_spec needle text :
  contains needle text = true <-> substring needle text.
Proof.
  unfold substring. induction text as [|b text IH]; simpl.
  - rewrite orb_false_r, startswith_spec. split.
    + intros [post ->]. by exists [], post.
    + intros ([|? pre] & post & H); [eauto | done].
  - rewrite orb_true_iff, startswith_spec, IH. split.
    + intros [[post ->] | (pre & post & ->)].
      * by exists [], post.
      * by exists (b :: pre), post.
    + intros ([|c pre] & post & H); simpl in H.
      * left. eauto.
      * right. injection H as -> ->. eauto.
Qed.

Lemma any_keyword_in_spec keywords text :
  any_keyword_in keywords text = true <->
  exists keyword, keyword ∈ keywords /\ substring keyword text.
Proof.
  induction keywords as [|k ks IH]; simpl.
  - split; [done | intros (? & H & _); by apply elem_of_nil in H].
  - destruct (contains k text) eqn:Hk.
    + split; [intros _ | done]. exists k. split; [left | by apply contains_spec].
    + rewrite IH. split.
      * intros (kw & ? & ?). exists kw. split; [by right | done].
      * intros (kw & [-> | ?]%elem_of_cons & Hs); [| eauto].
        apply contains_spec in Hs. congruence.
Qed.

(** The matcher computes the language of the pattern. *)
Lemma rep_match_spec (f : pystr -> list pystr) r :
  (forall s rest, rest ∈ f s <-> exists w, s = w ++ rest /\ matches r w) ->
  forall hi lo s rest,
    rest ∈ rep_match f lo hi s <-> exists w, s = w ++ rest /\ matches (RRep r lo hi) w.
Proof.
  intros Hf. induction hi as [|hi IH]; intros lo s rest; simpl.
  - rewrite app_nil_r. destruct lo; simpl.
    + rewrite list_elem_of_singleton. split.
      * intros ->. exists []. split; [done | constructor].
      * intros (w & -> & Hm). inversion Hm. done.
    + split; [by intros ?%elem_of_nil |]. intros (w & _ & Hm). inversion Hm.
  - rewrite elem_of_app, (list_elem_of_In (flat_map _ _)), in_flat_map. split.
    + intros [H | (mid & Hmid & Hrest)].
      * destruct lo; [| by apply elem_of_nil in H].
        apply list_elem_of_singleton in H as ->. exists []. split; [done | constructor].
      * apply list_elem_of_In, Hf in Hmid as (w1 & -> & Hw1).
        apply list_elem_of_In, IH in Hrest as (w2 & -> & Hw2).
        exists (w1 ++ w2). split; [by rewrite app_assoc | by constructor].
    + intros (w & -> & Hm). inversion Hm; subst.
      * left. simpl. by apply list_elem_of_singleton.
      * right. exists (w2 ++ rest). split.
        -- apply list_elem_of_In, Hf. exists w1. by rewrite app_assoc.
        -- apply list_elem_of_In, IH. eauto.
Qed.

Lemma rmatch_spec r s rest :
  rest ∈ rmatch r s <-> exists w, s = w ++ rest /\ matches r w.
Proof.
  revert s rest. induction r as [c| | |r1 IH1 r2 IH2|r1 IH1 r2 IH2|r IH lo hi];
    intros s rest; simpl.
  - destruct s as [|x s].
    + split; [by intros ?%elem_of_nil |]. intros (w & Hs & Hm).
      inversion Hm; subst. done.
    + destruct (N.eqb_spec x c) as [->|Hne].
      * rewrite list_elem_of_singleton. split.
        -- intros ->. exists [c]. split; [done | constructor].
        -- intros (w & Hs & Hm). inversion Hm; subst. by injection Hs.
      * split; [by intros ?%elem_of_nil |]. intros (w & Hs & Hm).
        inversion Hm; subst. injection Hs as -> _. done.
  - destruct s as [|x s].
    + split; [by intros ?%elem_of_nil |]. intros (w & Hs & Hm).
      inversion Hm; subst. done.
    + destruct (N.eqb_spec x newline) as [->|Hne].
      * split; [by intros ?%elem_of_nil |]. intros (w & Hs & Hm).
        inversion Hm; subst. injection Hs as <- _. done.
      * rewrite list_elem_of_singleton. split.
        -- intros ->. exists [x]. split; [done | by constructor].
        -- intros (w & Hs & Hm). inversion Hm; subst. by injection Hs.
  - rewrite list_elem_of_singleton. split.
    + intros ->. exists []. split; [done | constructor].
    + intros (w & -> & Hm). inversion Hm. done.
  - rewrite list_elem_of_In, in_flat_map. split.
    + intros (mid & Hmid & Hrest).
      apply list_elem_of_In, IH1 in Hmid as (w1 & -> & Hw1).
      apply list_elem_of_In, IH2 in Hrest as (w2 & -> & Hw2).
      exists (w1 ++ w2). split; [by rewrite app_assoc | by constructor].
    + intros (w & -> & Hm). inversion Hm; subst.
      exists (w2 ++ rest). split.
      * apply list_elem_of_In, IH1. exists w1. by rewrite app_assoc.
      * apply list_elem_of_In, IH2. eauto.
  - rewrite elem_of_app, IH1, IH2. split.
    + intros [(w & -> & Hm) | (w & -> & Hm)]; exists w; split; try done.
      * by apply matches_alt_l.
      * by apply matches_alt_r.
    + intros (w & -> & Hm). inversion Hm; subst; eauto.
  - by apply rep_match_spec.
Qed.

Lemma match_here_spec r s :
  match_here r s = true <-> exists w post, s = w ++ post /\ matches r w.
Proof.
  unfold match_here. split.
  - destruct (rmatch r s) as [|rest l] eqn:E; [done |]. intros _.
    assert (rest ∈ rmatch r s) as (w & Hs & Hm)%rmatch_spec by (rewrite E; left).
    by exists w, rest.
  - intros (w & post & -> & Hm).
    assert (post ∈ rmatch r (w ++ post)) as Hin by (apply rmatch_spec; eauto).
    by destruct (rmatch r (w ++ post)); [apply elem_of_nil in Hin |].
Qed.

Lemma search_spec r text : search r text = true <-> occurs r text.
Proof.
  unfold occurs. induction text as [|b text IH]; simpl.
  - rewrite orb_false_r, match_here_spec. split.
    + intros (w & post & -> & Hm). by exists [], w, post.
    + intros ([|? pre] & w & post & H & Hm); [by exists w, post | done].
  - rewrite orb_true_iff, match_here_spec, IH. split.
    + intros [(w & post & -> & Hm) | (pre & w & post & -> & Hm)].
      * by exists [], w, post.
      * by exists (b :: pre), w, post.
    + intros ([|c pre] & w & post & H & Hm); simpl in H.
      * left. by exists w, post.
      * right. injection H as -> ->. eauto.
Qed.

Lemma re_search_found pattern text :
  re_search pattern text = Ok true <-> pattern_found pattern text.
Proof.
  unfold re_search, pattern_found. destruct (re_compile pattern) as [r|].
  - split.
    + intros [= H]. exists r. split; [done | by apply search_spec].
    + intros (r' & [= <-] & H). f_equal. by apply search_spec.
  - split; [done | by intros (r' & ? & _)].
Qed.

Lemma re_search_compiled pattern r text :
  re_compile pattern = Some r -> re_search pattern text = Ok (search r text).
Proof. unfold re_search. by intros ->. Qed.

(** Literal patterns *)
Lemma matches_lit_then s r w :
  matches (lit_then s r) w <-> exists w', w = s ++ w' /\ matches r w'.
Proof.
  revert w. induction s as [|c s IH]; intros w; simpl.
  - split; [eauto | by intros (w' & -> & ?)].
  - split.
    + intros Hm. inversion Hm as [| | |? ? w1 w2 H1 H2| | | |]; subst.
      inversion H1; subst. apply IH in H2 as (w' & -> & ?). eauto.
    + intros (w' & -> & Hm). apply (matches_seq _ _ [c]); [constructor |].
      apply IH. eauto.
Qed.

Lemma matches_lit s w : matches (lit_regex s) w <-> w = s.
Proof.
  unfold lit_regex. rewrite matches_lit_then. split.
  - intros (w' & -> & Hm). inversion Hm. by rewrite app_nil_r.
  - intros ->. exists []. split; [by rewrite app_nil_r | constructor].
Qed.

Lemma occurs_lit s text : occurs (lit_regex s) text <-> substring s text.
Proof.
  unfold occurs, substring. split.
  - intros (pre & w & post & -> & Hm). apply matches_lit in Hm as ->. eauto.
  - intros (pre & post & ->). exists pre, s, post. split; [done | by apply matches_lit].
Qed.

Lemma matches_gap n w :
  matches (RRep RAny 0 n) w <-> length w ≤ n /\ (newline ∉ w).
Proof.
  revert w. induction n as [|n IH]; intros w.
  - split.
    + intros Hm. inversion Hm; subst. simpl. split; [lia | apply not_elem_of_nil].
    + intros [Hl _]. destruct w; [constructor | simpl in Hl; lia].
  - split.
    + intros Hm. inversion Hm as [| | | | | |? ?|? ? ? w1 w2 H1 H2]; subst.
      * simpl. split; [lia | apply not_elem_of_nil].
      * inversion H1; subst. apply IH in H2 as [? ?]. simpl. split; [lia |].
        rewrite not_elem_of_cons. done.
    + intros [Hl Hn]. destruct w as [|c w]; [constructor |].
      apply not_elem_of_cons in Hn as [? ?]. simpl in Hl.
      apply (matches_rep_step RAny 0 n [c] w); [by constructor |].
      apply IH. split; [lia | done].
Qed.

Lemma matches_optional_char c w :
  matches (RRep (RChar c) 0 1) w <-> w = [] \/ w = [c].
Proof.
  split.
  - intros Hm. inversion Hm as [| | | | | |? ?|? ? ? w1 w2 H1 H2]; subst; [by left |].
    inversion H1; subst. inversion H2; subst. by right.
  - intros [-> | ->]; [constructor |].
    apply (matches_rep_step (RChar c) 0 0 [c] []); constructor.
Qed.

(** What the relaxed pattern finds: the stem, a gap of at most two
    characters without a newline, and the first character of the suffix. *)
Lemma occurs_relaxed stem c1 c2 text :
  occurs (relaxed_regex stem c1 c2) text <->
  exists gap, length gap ≤ 2 /\ (newline ∉ gap) /\ substring (stem ++ gap ++ [c1]) text.
Proof.
  unfold occurs, relaxed_regex, substring. split.
  - intros (pre & w & post & -> & Hm).
    apply matches_lit_then in Hm as (w1 & -> & Hm).
    inversion Hm as [| | |? ? gap w2 Hgap H2| | | |]; subst.
    apply matches_gap in Hgap as [? ?].
    inversion H2 as [| | |? ? w3 w4 H3 H4| | | |]; subst.
    inversion H3; subst.
    exists gap. split_and!; [done.. |].
    exists pre, (w4 ++ post). by rewrite <- !app_assoc.
  - intros (gap & ? & ? & pre & post & ->).
    exists pre, (stem ++ gap ++ [c1]), post. split; [done |].
    apply matches_lit_then. exists (gap ++ [c1]). split; [done |].
    constructor; [by apply matches_gap |].
    apply (matches_seq _ _ [c1] []); [constructor |].
    apply (matches_seq _ _ [] []); constructor.
Qed.

(** ** Classification *)

Lemma classify_scan_first before category keywords after text :
  (forall c ks keyword, (c, ks) ∈ before -> keyword ∈ ks -> ~ substring keyword text) ->
  (exists keyword, keyword ∈ keywords /\ substring keyword text) ->
  classify_scan (before ++ (category, keywords) :: after) text = Some category.
Proof.
  intros Hbefore Hkw. induction before as [|[c ks] before IH]; simpl.
  - apply any_keyword_in_spec in Hkw. by rewrite Hkw.
  - destruct (any_keyword_in ks text) eqn:E.
    + apply any_keyword_in_spec in E as (kw & ? & ?).
      exfalso. apply (Hbefore c ks kw); [left | done | done].
    + apply IH. intros c' ks' kw ? ?. apply (Hbefore c' ks' kw); [by right | done].
Qed.

Lemma classify_scan_none table text :
  (forall c ks keyword, (c, ks) ∈ table -> keyword ∈ ks -> ~ substring keyword text) ->
  classify_scan table text = None.
Proof.
  intros Hnone. induction table as [|[c ks] table IH]; simpl; [done |].
  destruct (any_keyword_in ks text) eqn:E.
  - apply any_keyword_in_spec in E as (kw & ? & ?).
    exfalso. apply (Hnone c ks kw); [left | done | done].
  - apply IH. intros c' ks' kw ? ?. apply (Hnone c' ks' kw); [by right | done].
Qed.

Lemma classify_scan_label table text category :
  classify_scan table text = Some category -> category ∈ dict_keys table.
Proof.
  induction table as [|[c ks] table IH]; simpl; [done |].
  destruct (any_keyword_in ks text).
  - intros [= ->]. left.
  - intros ?. right. by apply IH.
Qed.

(** C3: an absent insurance type is classified as the other category; a
    text is classified as the first category of the table, in declared
    order, one of whose keywords is a substring of the text, and as the
    other category when no keyword of any category occurs in it.  The
    result is always one of the eight labels and depends on the text only. *)
Theorem classify_insurance_first_match (insurance_type : cell) :
  (insurance_type = None -> classify_insurance insurance_type = OTHER) /\
  (forall text, insurance_type = Some text ->
     (forall before category keywords after,
        INSURANCE_CATEGORIES = before ++ (category, keywords) :: after ->
        (exists keyword, keyword ∈ keywords /\ substring keyword text) ->
        (forall c ks keyword,
           (c, ks) ∈ before -> keyword ∈ ks -> ~ substring keyword text) ->
        classify_insurance insurance_type = category) /\
     ((forall c ks keyword,
         (c, ks) ∈ INSURANCE_CATEGORIES -> keyword ∈ ks -> ~ substring keyword text) ->
      classify_insurance insurance_type = OTHER)) /\
  classify_insurance insurance_type ∈ OTHER :: dict_keys INSURANCE_CATEGORIES.
Proof.
  split_and!.
  - by intros ->.
  - intros text ->. split.
    + intros before category keywords after Htable Hkw Hbefore.
      unfold classify_insurance. rewrite Htable.
      by rewrite (classify_scan_first _ _ _ after _ Hbefore Hkw).
    + intros Hnone. unfold classify_insurance.
      by rewrite (classify_scan_none INSURANCE_CATEGORIES text Hnone).
  - destruct insurance_type as [text|]; unfold classify_insurance; [| left].
    destruct (classify_scan INSURANCE_CATEGORIES text) eqn:E; [| left].
    right. by apply classify_scan_label in E.
Qed.

(** ** Mandatory items *)

Lemma mandatory_patterns_compile :
  Forall (fun entry : pystr * pystr => is_Some (re_compile entry.2)) MANDATORY_PATTERNS.
Proof. repeat constructor; vm_compute; eauto. Qed.

Lemma mandatory_loop_filter items text missing :
  Forall (fun entry : pystr * pystr => is_Some (re_compile entry.2)) items ->
  mandatory_loop items text missing =
    Ok (missing ++ (filter (fun entry => item_missing text entry = true) items).*1).
Proof.
  intros Hall. revert missing.
  induction Hall as [|[item pattern] items [r Hr] _ IH]; intros missing; simpl.
  - by rewrite app_nil_r.
  - simpl in Hr. rewrite (re_search_compiled _ _ _ Hr). simpl.
    destruct (search r text) eqn:Hs; rewrite IH.
    + rewrite filter_cons_False; [done |].
      unfold item_missing. simpl. by rewrite (re_search_compiled _ _ _ Hr), Hs.
    + rewrite filter_cons_True.
      * by rewrite fmap_cons, <- app_assoc.
      * unfold item_missing. simpl. by rewrite (re_search_compiled _ _ _ Hr), Hs.
Qed.

Lemma item_missing_spec text item pattern :
  is_Some (re_compile pattern) ->
  item_missing text (item, pattern) = true <-> ~ pattern_found pattern text.
Proof.
  intros [r Hr]. rewrite <- re_search_found. unfold item_missing. simpl.
  rewrite (re_search_compiled _ _ _ Hr). by destruct (search r text).
Qed.

Lemma nodup_keys_unique {V} (d : list (pystr * V)) k v1 v2 :
  NoDup (dict_keys d) -> (k, v1) ∈ d -> (k, v2) ∈ d -> v1 = v2.
Proof.
  unfold dict_keys. induction d as [|[k' v'] d IH]; simpl.
  - by intros _ ?%elem_of_nil.
  - intros [Hnotin Hnd]%NoDup_cons H1 H2.
    apply elem_of_cons in H1, H2. destruct H1 as [E1|H1], H2 as [E2|H2].
    + congruence.
    + injection E1 as -> ->. destruct Hnotin. apply list_elem_of_fmap. by exists (k', v2).
    + injection E2 as -> ->. destruct Hnotin. apply list_elem_of_fmap. by exists (k', v1).
    + by apply IH.
Qed.

Lemma mandatory_keys_nodup : NoDup (dict_keys MANDATORY_PATTERNS).
Proof. apply (bool_decide_unpack _). by vm_compute. Qed.

(** C7: on an absent summary the check fails and reports all five items
    in declared order; on a text it reports, in declared order, exactly
    the items whose pattern matches nowhere in the text, and it passes
    exactly when it reports none. *)
Theorem check_mandatory_missing_items (survey_summary : cell) :
  (survey_summary = None ->
     check_mandatory survey_summary = Ok (false, dict_keys MANDATORY_PATTERNS)) /\
  (forall text, survey_summary = Some text ->
     exists missing,
       check_mandatory survey_summary = Ok (bool_decide (missing = []), missing) /\
       missing `sublist_of` dict_keys MANDATORY_PATTERNS /\
       forall item pattern, (item, pattern) ∈ MANDATORY_PATTERNS ->
         (item ∈ missing <-> ~ pattern_found pattern text)).
Proof.
  split; [by intros -> |]. intros text ->.
  set (missing := (filter (fun entry => item_missing text entry = true) MANDATORY_PATTERNS).*1).
  exists missing. split_and!.
  - unfold check_mandatory.
    rewrite (mandatory_loop_filter _ _ _ mandatory_patterns_compile).
    unfold mbind, exc_bind. rewrite app_nil_l.
    fold missing. do 2 f_equal. apply bool_decide_ext. by destruct missing.
  - unfold missing, dict_keys. apply fmap_sublist, sublist_filter.
  - intros item pattern Hin. unfold missing. rewrite list_elem_of_fmap. split.
    + intros ([item' pattern'] & Heq & [Hmiss Hin']%list_elem_of_filter).
      simpl in Heq. subst item'.
      assert (pattern' = pattern) as ->.
      { exact (nodup_keys_unique _ _ _ _ mandatory_keys_nodup Hin' Hin). }
      apply item_missing_spec in Hmiss; [done |].
      by apply (proj1 (Forall_forall _ _) mandatory_patterns_compile (item, pattern)).
    + intros Hnot. exists (item, pattern). split; [done |].
      apply list_elem_of_filter. split; [| done].
      apply item_missing_spec; [| done].
      by apply (proj1 (Forall_forall _ _) mandatory_patterns_compile (item, pattern)).
Qed.

Lemma dict_lookup_elem_of {V} (d : list (pystr * V)) key v :
  dict_lookup d key = Some v -> (key, v) ∈ d.
Proof.
  induction d as [|[k v'] d IH]; simpl; [done |].
  destruct (decide (k = key)) as [->|].
  - intros [= ->]. left.
  - intros ?. right. by apply IH.
Qed.

Lemma core_default : dict_getitem CORE_ELEMENTS OTHER = Ok (elements_of OTHER).
Proof. by vm_compute. Qed.

Lemma elements_of_default category :
  dict_get CORE_ELEMENTS category (elements_of OTHER) = elements_of category.
Proof. unfold elements_of, dict_get. by destruct (dict_lookup CORE_ELEMENTS category). Qed.

Lemma elements_of_table category : elements_of category ∈ CORE_ELEMENTS.*2.
Proof.
  unfold elements_of, dict_get.
  destruct (dict_lookup CORE_ELEMENTS category) as [l|] eqn:E.
  - apply dict_lookup_elem_of in E. apply list_elem_of_fmap. by exists (category, l).
  - apply (bool_decide_unpack _). by vm_compute.
Qed.

Lemma all_elements_compile :
  Forall (fun entry : pystr * list pystr =>
            Forall (fun e => re_compile (fuzzy_pattern e) = Some (element_regex e)) entry.2)
    CORE_ELEMENTS.
Proof. apply (bool_decide_unpack _). by vm_compute. Qed.

Lemma element_compiles category e :
  e ∈ elements_of category -> re_compile (fuzzy_pattern e) = Some (element_regex e).
Proof.
  intros He.
  destruct (proj1 (list_elem_of_fmap _ _ _) (elements_of_table category))
    as (entry & Heq & Hentry).
  pose proof (proj1 (Forall_forall _ _) all_elements_compile entry Hentry) as Hall.
  simpl in Hall. rewrite <- Heq in Hall. by apply (proj1 (Forall_forall _ _) Hall e).
Qed.

Lemma element_found_search category e text :
  e ∈ elements_of category ->
  element_found e text = search (element_regex e) text || contains e text.
Proof.
  intros He. unfold element_found.
  by rewrite (re_search_compiled _ _ _ (element_compiles _ _ He)).
Qed.

Lemma core_loop_filter category elements text matched missing :
  (forall e, e ∈ elements -> e ∈ elements_of category) ->
  core_loop elements text matched missing =
    Ok (matched ++ filter (fun e => element_found e text = true) elements,
        missing ++ filter (fun e => element_found e text <> true) elements).
Proof.
  revert matched missing. induction elements as [|e elements IH];
    intros matched missing Hsub; simpl.
  - by rewrite !app_nil_r.
  - assert (e ∈ elements_of category) as He by (apply Hsub; left).
    pose proof (element_found_search _ _ text He) as Hfound.
    rewrite (re_search_compiled _ _ _ (element_compiles _ _ He)). simpl.
    rewrite <- Hfound.
    destruct (element_found e text) eqn:E.
    + rewrite IH by (intros; apply Hsub; by right).
      rewrite filter_cons_True, filter_cons_False by (rewrite ?E; try done; auto).
      by rewrite <- app_assoc.
    + rewrite IH by (intros; apply Hsub; by right).
      rewrite filter_cons_False, filter_cons_True by (rewrite ?E; try done; auto).
      by rewrite <- app_assoc.
Qed.

Lemma check_core_elements_present category text :
  let elements := elements_of category in
  let matched := filter (fun e => element_found e text = true) elements in
  let missing := filter (fun e => element_found e text <> true) elements in
  check_core_elements category (Some text) =
    Ok (bool_decide (Nat.min 3 (length elements) ≤ length matched), length matched, missing).
Proof.
  intros elements matched missing. unfold check_core_elements.
  rewrite core_default. simpl. rewrite elements_of_default.
  by rewrite (core_loop_filter category).
Qed.

Lemma check_core_elements_absent category :
  check_core_elements category None = Ok (false, 0, elements_of category).
Proof.
  unfold check_core_elements. rewrite core_default. simpl.
  by rewrite elements_of_default.
Qed.

Lemma filter_partition_length {A} (P : A -> Prop) `{!forall x, Decision (P x)} (l : list A) :
  length (filter P l) + length (filter (fun x => ~ P x) l) = length l.
Proof.
  induction l as [|x l IH]; [done |].
  destruct (decide (P x)).
  - rewrite filter_cons_True, filter_cons_False by auto. simpl. lia.
  - rewrite filter_cons_False, filter_cons_True by auto. simpl. lia.
Qed.

(** C10: on a present summary the matched count and the missing elements
    partition the element list of the category: the count plus the number
    of missing elements is the length of the list, the missing elements
    are a subsequence of the list, and an element that occurs verbatim in
    the text is never missing. *)
Theorem core_elements_partition (category text : pystr) :
  exists passed matched_count missing,
    check_core_elements category (Some text) = Ok (passed, matched_count, missing) /\
    matched_count + length missing = length (elements_of category) /\
    missing `sublist_of` elements_of category /\
    forall e, e ∈ elements_of category -> substring e text -> e ∉ missing.
Proof.
  eexists _, _, _. split; [apply check_core_elements_present |]. split_and!.
  - apply (filter_partition_length (fun e => element_found e text = true)).
  - apply sublist_filter.
  - intros e He Hsub [Hnot _]%list_elem_of_filter. apply Hnot.
    rewrite (element_found_search _ _ _ He).
    apply contains_spec in Hsub. rewrite Hsub. apply orb_true_r.
Qed.

Lemma split_suffix_intro stem c1 c2 :
  [c1; c2] ∈ SUFFIXES -> split_suffix (stem ++ [c1; c2]) = Some (stem, c1, c2).
Proof.
  intros Hs. unfold split_suffix. rewrite rev_app_distr. simpl.
  rewrite decide_True by done. by rewrite rev_involutive.
Qed.

Lemma split_suffix_elim e stem c1 c2 :
  split_suffix e = Some (stem, c1, c2) -> e = stem ++ [c1; c2] /\ [c1; c2] ∈ SUFFIXES.
Proof.
  unfold split_suffix. destruct (rev e) as [|x [|y rstem]] eqn:E; [done.. |].
  destruct (decide _) as [Hs|]; [| done]. intros [= <- <- <-]. split; [| done].
  rewrite <- (rev_involutive e), E. simpl. by rewrite <- app_assoc.
Qed.

Lemma element_found_spec category e text :
  e ∈ elements_of category ->
  element_found e text = true <-> substring e text \/ relaxed_occurs e text.
Proof.
  intros He. rewrite (element_found_search _ _ _ He), orb_true_iff.
  rewrite search_spec, contains_spec. unfold element_regex, relaxed_occurs.
  destruct (split_suffix e) as [[[stem c1] c2]|] eqn:E.
  - apply split_suffix_elim in E as [-> Hs]. rewrite occurs_relaxed. split.
    + intros [(gap & ? & ? & ?) | ?]; [right | by left]. by exists stem, c1, c2, gap.
    + intros [? | (stem' & c1' & c2' & gap & Heq & _ & ? & ? & ?)]; [by right | left].
      apply app_inj_2 in Heq as [<- [= <- <-]]; [| done]. by exists gap.
  - rewrite occurs_lit. split; [intros [?|?]; by left |].
    intros [? | (stem & c1 & c2 & gap & -> & Hs & _)]; [by left |].
    by rewrite split_suffix_intro in E.
Qed.

(** C4, as the program has it: the matcher uses the element list of the
    category, or the list of the other category when it has none; on an
    absent summary it fails with no match and the whole list missing; on
    a text an element is matched when it is a substring of the text or,
    for an element ending in one of the two suffixes, when the text has
    its stem, at most two characters other than a newline, and the first
    character of the suffix (the second one is optional); the rule passes
    when at least min(3, length of the list) elements are matched. *)
Theorem check_core_elements_relaxed_match (category : pystr) (survey_summary : cell) :
  let elements := elements_of category in
  (forall own, dict_lookup CORE_ELEMENTS category = Some own -> elements = own) /\
  (dict_lookup CORE_ELEMENTS category = None -> elements = elements_of OTHER) /\
  (survey_summary = None ->
     check_core_elements category survey_summary = Ok (false, 0, elements)) /\
  (forall text, survey_summary = Some text ->
     exists matched_count missing,
       check_core_elements category survey_summary =
         Ok (bool_decide (Nat.min 3 (length elements) ≤ matched_count),
             matched_count, missing) /\
       matched_count + length missing = length elements /\
       missing `sublist_of` elements /\
       forall e, e ∈ elements ->
         (e ∉ missing <-> substring e text \/ relaxed_occurs e text)).
Proof.
  intros elements. split_and!.
  - intros own H. unfold elements, elements_of, dict_get. by rewrite H.
  - intros H. unfold elements, elements_of, dict_get. rewrite H. by vm_compute.
  - intros ->. apply check_core_elements_absent.
  - intros text ->. eexists _, _. split; [apply check_core_elements_present |].
    split_and!.
    + apply (filter_partition_length (fun e => element_found e text = true)).
    + apply sublist_filter.
    + intros e He. rewrite <- (element_found_spec category) by done.
      rewrite list_elem_of_filter. split.
      * intros Hnot. destruct (element_found e text); [done |].
        destruct Hnot. by split.
      * intros Hf [Hnot _]. by apply Hnot.
Qed.

(** ['标的分类'] and ['维修方案'] match the relaxed patterns of two elements. *)
Lemma check_core_elements_relaxed_match_witness :
  exists matched_count missing,
    check_core_elements (py "财产类") (Some (py "标的分类、维修方案")) =
      Ok (bool_decide (Nat.min 3 (length (elements_of (py "财产类"))) ≤ matched_count),
          matched_count, missing) /\
    matched_count = 2 /\ missing = map py ["原因类型"; "财务账册"; "残值"]%string.
Proof.
  destruct (check_core_elements_relaxed_match (py "财产类") (Some (py "标的分类、维修方案")))
    as (_ & _ & _ & H).
  destruct (H _ eq_refl) as (n & missing & Heq & _).
  exists n, missing. split; [exact Heq |].
  vm_compute in Heq. injection Heq as _ <- <-. by vm_compute.
Defined.

(** C4 as stated fails: by the stated pattern the stem alone would be a
    match, the program finds none in a text that lacks ['类']. *)
Lemma core_elements_stem_alone_not_matched :
  check_core_elements (py "财产类") (Some (py "标的")) =
    Ok (false, 0, elements_of (py "财产类")) /\
  spec_matched_count 2 (py "财产类") (py "标的") = 1.
Proof. split; by vm_compute. Qed.

(** ** Overlap *)

Lemma truediv_ratio a b : b <> 0 -> truediv a b = Ok (ratio a b).
Proof.
  intros Hb. unfold truediv, ratio. rewrite decide_False by done. f_equal.
  apply Qc_is_canon. unfold Qc_of_Z, Qcdiv, Qcmult, Qcinv, Q2Qc. simpl.
  rewrite !Qred_correct.
  destruct b as [|b]; [done |].
  unfold Qeq, Qmult, Qinv, inject_Z. simpl. lia.
Qed.

Lemma ratio_bounds a b : a ≤ b -> 0 < b -> (0 ≤ ratio a b)%Qc /\ (ratio a b ≤ 1)%Qc.
Proof.
  intros Hab Hb. unfold ratio, Qcle, Qc_of_Z, Qcdiv, Qcmult, Qcinv, Q2Qc. simpl.
  rewrite !Qred_correct.
  destruct b as [|b]; [lia |].
  unfold Qle, Qmult, Qinv, inject_Z. simpl. lia.
Qed.

Lemma ratio_same n : 0 < n -> ratio n n = 1%Qc.
Proof.
  intros Hn. unfold ratio. apply Qc_is_canon.
  unfold Qc_of_Z, Qcdiv, Qcmult, Qcinv, Q2Qc. simpl. rewrite !Qred_correct.
  destruct n as [|n]; [lia |].
  unfold Qeq, Qmult, Qinv, inject_Z. simpl. lia.
Qed.

Lemma ratio_zero b : ratio 0 b = 0%Qc.
Proof.
  unfold ratio. apply Qc_is_canon.
  unfold Qc_of_Z, Qcdiv, Qcmult, Qcinv, Q2Qc. simpl. rewrite !Qred_correct.
  unfold Qeq, Qmult. simpl. lia.
Qed.

Lemma charset_size_pos c text : 0 < size (charset (c :: text)).
Proof.
  assert (size (charset (c :: text)) <> 0); [| lia].
  apply size_non_empty_iff. unfold charset. set_solver.
Qed.

Lemma check_overlap_nonempty report survey :
  strip report <> [] -> strip survey <> [] ->
  check_overlap (Some report) (Some survey) =
    Ok (bool_decide (overlap_rate_of (strip report) (strip survey) < threshold)%Qc,
        overlap_rate_of (strip report) (strip survey)).
Proof.
  intros Hr Hs. unfold check_overlap, overlap_rate_of.
  destruct (strip report) as [|c1 l1] eqn:E1; [done |].
  destruct (strip survey) as [|c2 l2] eqn:E2; [done |].
  fold (charset (c1 :: l1)). fold (charset (c2 :: l2)).
  pose proof (charset_size_pos c1 l1).
  rewrite decide_True by lia. rewrite truediv_ratio by lia. done.
Qed.

Lemma lstrip_elem_of c s : c ∈ lstrip s -> c ∈ s.
Proof.
  induction s as [|x s IH]; simpl; [done |].
  destruct (is_space x); [| done]. intros ?. right. by apply IH.
Qed.

Lemma strip_elem_of c s : c ∈ strip s -> c ∈ s.
Proof.
  unfold strip. rewrite list_elem_of_In, <- in_rev, <- list_elem_of_In.
  intros H%lstrip_elem_of. apply lstrip_elem_of.
  by rewrite list_elem_of_In, in_rev, <- list_elem_of_In.
Qed.

(** C6: when a summary is absent or empty after trimming the rule passes
    with rate 0; otherwise the rate is the number of distinct characters
    common to the two trimmed texts over the larger of their numbers of
    distinct characters, it lies between 0 and 1, and the rule passes
    exactly when it is below 4/5.  The same non-empty text on both sides
    gives rate 1 and fails; texts with no common character give rate 0
    and pass. *)
Theorem check_overlap_rate (report_summary survey_summary : cell) :
  (report_summary = None \/ survey_summary = None \/
   (exists report, report_summary = Some report /\ strip report = []) \/
   (exists survey, survey_summary = Some survey /\ strip survey = []) ->
   check_overlap report_summary survey_summary = Ok (true, 0%Qc)) /\
  (forall report survey,
     report_summary = Some report -> survey_summary = Some survey ->
     strip report <> [] -> strip survey <> [] ->
     let rate := overlap_rate_of (strip report) (strip survey) in
     check_overlap report_summary survey_summary =
       Ok (bool_decide (rate < Qc_of_Z 4 / Qc_of_Z 5)%Qc, rate) /\
     (0 ≤ rate)%Qc /\ (rate ≤ 1)%Qc) /\
  (forall text,
     report_summary = Some text -> survey_summary = Some text -> strip text <> [] ->
     check_overlap report_summary survey_summary = Ok (false, 1%Qc)) /\
  (forall report survey,
     report_summary = Some report -> survey_summary = Some survey ->
     (forall c, c ∈ report -> c ∉ survey) ->
     check_overlap report_summary survey_summary = Ok (true, 0%Qc)).
Proof.
  split_and!.
  - intros [-> | [-> | [(report & -> & Hr) | (survey & -> & Hs)]]].
    + done.
    + by destruct report_summary.
    + destruct survey_summary as [survey|]; [| done]. simpl. by rewrite Hr.
    + destruct report_summary as [report|]; [| done]. simpl. rewrite Hs.
      by destruct (strip report).
  - intros report survey -> -> Hr Hs rate. split.
    + by rewrite check_overlap_nonempty.
    + unfold rate, overlap_rate_of.
      destruct (strip report) as [|c1 l1]; [done |].
      pose proof (charset_size_pos c1 l1).
      apply ratio_bounds; [| lia].
      etrans; [apply subseteq_size, intersection_subseteq_l | lia].
  - intros text -> [= ->] Ht. rewrite check_overlap_nonempty by done.
    unfold overlap_rate_of.
    rewrite (idemp_L (∩) (charset (strip text))).
    rewrite Nat.max_id, ratio_same; [done |].
    destruct (strip text); [done | apply charset_size_pos].
  - intros report survey -> -> Hdisj.
    destruct (decide (strip report = [])) as [Hr|Hr].
    { simpl. by rewrite Hr. }
    destruct (decide (strip survey = [])) as [Hs|Hs].
    { simpl. rewrite Hs. by destruct (strip report). }
    rewrite check_overlap_nonempty by done. unfold overlap_rate_of.
    replace (charset (strip report) ∩ charset (strip survey)) with (∅ : gset pychar).
    + by rewrite size_empty, ratio_zero.
    + symmetry. apply leibniz_equiv, elem_of_equiv_empty. intros c.
      unfold charset. rewrite elem_of_intersection, !elem_of_list_to_set.
      intros [H1%strip_elem_of H2%strip_elem_of]. by apply (Hdisj c).
Qed.

(** ** The delay rule *)

Section Delay.

Context {obj : Type}.
Variable to_datetime : pystr -> Exc datetime.
Variable Timestamp : obj -> Exc datetime.

Lemma convert_time_present (c : timecell obj) dt :
  convert_time to_datetime Timestamp c = Ok dt -> time_isna c = false.
Proof. by destruct c. Qed.



(** The outcome once both cells are converted, in terms of the delay. *)
Lemma check_delay_converted (accident_time report_time : timecell obj)
    (survey_summary : cell) (accident_dt report_dt : datetime) :
  convert_time to_datetime Timestamp accident_time = Ok accident_dt ->
  convert_time to_datetime Timestamp report_time = Ok report_dt ->
  let delay_days := days (datetime_sub report_dt accident_dt) in
  check_delay to_datetime Timestamp accident_time report_time survey_summary =
    if days_le delay_days 7 then Ok (false, true, [])
    else match survey_summary with
         | None => Ok (true, false, delay_reason_absent delay_days)
         | Some text =>
           if any_keyword_in DELAY_KEYWORDS text then Ok (true, true, [])
           else Ok (true, false, delay_reason_nokeyword delay_days)
         end.
Proof.
  intros Ha Hr delay_days. unfold check_delay, check_delay_body, mbind, exc_bind.
  rewrite (convert_time_present _ _ Ha), (convert_time_present _ _ Hr), Ha, Hr.
  cbn [orb]. fold delay_days.
  destruct (days_le delay_days 7); [done |].
  destruct survey_summary as [text|]; [| done].
  by destruct (any_keyword_in DELAY_KEYWORDS text).
Qed.


(** With a cell that converts to not-a-time the delay is [nan], which is
    not at most 7: the rule is triggered. *)
Lemma check_delay_nat (accident_time report_time : timecell obj)
    (survey_summary : cell) (accident_dt report_dt : datetime) :
  convert_time to_datetime Timestamp accident_time = Ok accident_dt ->
  convert_time to_datetime Timestamp report_time = Ok report_dt ->
  accident_dt = NaT \/ report_dt = NaT ->
  check_delay to_datetime Timestamp accident_time report_time survey_summary =
    match survey_summary with
    | None => Ok (true, false, py "报案延迟nan天，查勘摘要未填写延迟原因")
    | Some text =>
      if any_keyword_in DELAY_KEYWORDS text then Ok (true, true, [])
      else Ok (true, false, py "报案延迟nan天，查勘摘要未包含延迟原因说明")
    end.
Proof.
  intros Ha Hr Hnat. rewrite (check_delay_converted _ _ survey_summary _ _ Ha Hr).
  assert (datetime_sub report_dt accident_dt = None) as ->.
  { destruct Hnat as [-> | ->]; [by destruct report_dt | done]. }
  cbn [days fmap option_fmap option_map days_le].
  destruct survey_summary as [text|]; [| by vm_compute].
  destruct (any_keyword_in DELAY_KEYWORDS text); [done |]. by vm_compute.
Qed.


Lemma check_delay_fail_open (accident_time report_time : timecell obj)
    (survey_summary : cell) :
  accident_time = TimeNa \/ report_time = TimeNa \/
  raises (convert_time to_datetime Timestamp accident_time) \/
  raises (convert_time to_datetime Timestamp report_time) ->
  check_delay to_datetime Timestamp accident_time report_time survey_summary =
    Ok (false, true, []).
Proof.
  unfold check_delay, check_delay_body.
  intros [-> | [-> | [[e He] | [e He]]]].
  - done.
  - by destruct accident_time.
  - destruct (time_isna accident_time || time_isna report_time); [done |].
    by rewrite He.
  - destruct (time_isna accident_time || time_isna report_time); [done |].
    rewrite He. by destruct (convert_time to_datetime Timestamp accident_time).
Qed.

Lemma check_delay_total (accident_time report_time : timecell obj)
    (survey_summary : cell) :
  exists outcome,
    check_delay to_datetime Timestamp accident_time report_time survey_summary = Ok outcome.
Proof.
  unfold check_delay.
  destruct (check_delay_body _ _ _ _ _) as [outcome|e]; simpl; eauto.
Qed.

End Delay.

Lemma check_mandatory_total survey_summary :
  exists outcome, check_mandatory survey_summary = Ok outcome.
Proof.
  destruct survey_summary as [text|]; unfold check_mandatory; [| eauto].
  rewrite (mandatory_loop_filter _ _ _ mandatory_patterns_compile).
  unfold mbind, exc_bind. eauto.
Qed.

Lemma check_core_elements_total category survey_summary :
  exists outcome, check_core_elements category survey_summary = Ok outcome.
Proof.
  destruct survey_summary as [text|].
  - rewrite check_core_elements_present. eauto.
  - rewrite check_core_elements_absent. eauto.
Qed.

Lemma check_overlap_total report_summary survey_summary :
  exists outcome, check_overlap report_summary survey_summary = Ok outcome.
Proof.
  destruct report_summary as [report|], survey_summary as [survey|];
    [| by eexists.. ].
  destruct (decide (strip report = [])) as [Hr|Hr].
  { unfold check_overlap. rewrite Hr. eauto. }
  destruct (decide (strip survey = [])) as [Hs|Hs].
  { unfold check_overlap. rewrite Hs. destruct (strip report); eauto. }
  rewrite (check_overlap_nonempty _ _ Hr Hs). eauto.
Qed.

(** Each of the four rules returns an outcome on every input, absent
    fields included, and never raises; when a timestamp is absent or its
    conversion raises, the delay rule is not triggered and passes. *)
Lemma rules_never_raise {obj : Type} (to_datetime : pystr -> Exc datetime)
    (Timestamp : obj -> Exc datetime) (accident_time report_time : timecell obj)
    (category : pystr) (report_summary survey_summary : cell) :
  (exists outcome, check_mandatory survey_summary = Ok outcome) /\
  (exists outcome,
     check_delay to_datetime Timestamp accident_time report_time survey_summary =
       Ok outcome) /\
  (exists outcome, check_core_elements category survey_summary = Ok outcome) /\
  (exists outcome, check_overlap report_summary survey_summary = Ok outcome) /\
  (accident_time = TimeNa \/ report_time = TimeNa \/
   raises (convert_time to_datetime Timestamp accident_time) \/
   raises (convert_time to_datetime Timestamp report_time) ->
   check_delay to_datetime Timestamp accident_time report_time survey_summary =
     Ok (false, true, [])).
Proof.
  split_and!.
  - apply check_mandatory_total.
  - apply check_delay_total.
  - apply check_core_elements_total.
  - apply check_overlap_total.
  - apply check_delay_fail_open.
Qed.

(** C9 fails on a timestamp that pandas reads as not-a-time without
    raising, such as the empty text.  When both cells are present, both
    conversions return and one of them returns not-a-time, the delay rule
    does not fail open: the delay is [nan], which is not at most 7, so
    the rule is triggered; it passes only on a justification keyword and
    otherwise fails with a reason that cites a delay of [nan] days. *)
Theorem check_delay_not_a_time {obj : Type} (to_datetime : pystr -> Exc datetime)
    (Timestamp : obj -> Exc datetime) (accident_time report_time : timecell obj)
    (survey_summary : cell) (accident_dt report_dt : datetime) :
  convert_time to_datetime Timestamp accident_time = Ok accident_dt ->
  convert_time to_datetime Timestamp report_time = Ok report_dt ->
  accident_dt = NaT \/ report_dt = NaT ->
  check_delay to_datetime Timestamp accident_time report_time survey_summary =
    match survey_summary with
    | None => Ok (true, false, py "报案延迟nan天，查勘摘要未填写延迟原因")
    | Some text =>
      if any_keyword_in DELAY_KEYWORDS text then Ok (true, true, [])
      else Ok (true, false, py "报案延迟nan天，查勘摘要未包含延迟原因说明")
    end /\
  check_delay to_datetime Timestamp accident_time report_time survey_summary <>
    Ok (false, true, []).
Proof.
  intros Ha Hr Hnat.
  rewrite (check_delay_nat _ _ _ _ survey_summary _ _ Ha Hr Hnat). split; [done |].
  destruct survey_summary as [text|]; [| done].
  by destruct (any_keyword_in DELAY_KEYWORDS text).
Qed.

(** ** The verdict of a case *)

Section Verdict.

Context {obj : Type}.
Variable to_datetime : pystr -> Exc datetime.
Variable Timestamp : obj -> Exc datetime.
Variable format_percent : Qc -> pystr.

Lemma verdict_labels_differ : QUALIFIED <> UNQUALIFIED.
Proof. by vm_compute. Qed.

(** C1: for every case all four rules produce an outcome; the reasons are,
    in the order mandatory, delay, core elements, overlap, one reason for
    each rule that fails, the delay rule failing only when it is triggered
    and not passed; the case is qualified exactly when no rule fails, and
    then the reasons are empty. *)
Theorem evaluate_case_verdict (row : CaseRecord obj) :
  exists mandatory delay core overlap,
    check_mandatory (row_survey_summary row) = Ok mandatory /\
    check_delay to_datetime Timestamp (row_accident_time row) (row_report_time row)
      (row_survey_summary row) = Ok delay /\
    check_core_elements (classify_insurance (row_insurance_type row))
      (row_survey_summary row) = Ok core /\
    check_overlap (row_report_summary row) (row_survey_summary row) = Ok overlap /\
    let min_required :=
      Nat.min 3 (length (elements_of (classify_insurance (row_insurance_type row)))) in
    let all_pass := mandatory.1 && negb (delay_fails delay) && core.1.1 && overlap.1 in
    let reasons :=
      (if mandatory.1 then [] else [mandatory_reason mandatory.2]) ++
      (if delay_fails delay then [delay.2] else []) ++
      (if core.1.1 then [] else [core_reason min_required core.1.2 core.2]) ++
      (if overlap.1 then [] else [overlap_reason format_percent overlap.2]) in
    evaluate_reasons to_datetime Timestamp format_percent row = Ok reasons /\
    evaluate_case to_datetime Timestamp format_percent row =
      Ok (if all_pass then QUALIFIED else UNQUALIFIED, join (py "；") reasons) /\
    (all_pass = true <-> reasons = []) /\
    QUALIFIED <> UNQUALIFIED.
Proof.
  destruct (check_mandatory_total (row_survey_summary row)) as [[mp mm] Hm].
  destruct (check_delay_total to_datetime Timestamp (row_accident_time row)
              (row_report_time row) (row_survey_summary row)) as [[[dt dp] dr] Hd].
  destruct (check_core_elements_total (classify_insurance (row_insurance_type row))
              (row_survey_summary row)) as [[[cp cc] cm] Hc].
  destruct (check_overlap_total (row_report_summary row) (row_survey_summary row))
    as [[op rate] Ho].
  exists (mp, mm), (dt, dp, dr), (cp, cc, cm), (op, rate).
  do 4 (split; [done |]). intros min_required all_pass reasons.
  subst min_required all_pass reasons. cbn [fst snd delay_fails].
  assert (evaluate_reasons to_datetime Timestamp format_percent row =
    Ok ((if mp then [] else [mandatory_reason mm]) ++
        (if dt && negb dp then [dr] else []) ++
        (if cp then []
         else [core_reason
                 (Nat.min 3 (length (elements_of (classify_insurance (row_insurance_type row)))))
                 cc cm]) ++
        (if op then [] else [overlap_reason format_percent rate]))) as Hreasons.
  { unfold evaluate_reasons, mbind, exc_bind. rewrite Hm, Hd, Hc, Ho.
    rewrite core_default, elements_of_default.
    by destruct mp, dt, dp, cp, op. }
  split; [done |]. split; [| split; [| apply verdict_labels_differ]].
  - unfold evaluate_case, mbind, exc_bind. rewrite Hreasons.
    by destruct mp, dt, dp, cp, op.
  - by destruct mp, dt, dp, cp, op.
Qed.

End Verdict.

(** ** The institution summary *)

Lemma str_leb_total a b : str_leb a b = true \/ str_leb b a = true.
Proof.
  revert b. induction a as [|x a IH]; intros [|y b]; simpl; auto.
  destruct (N.ltb_spec x y), (N.ltb_spec y x), (N.eqb_spec x y), (N.eqb_spec y x);
    auto; lia.
Qed.

Lemma str_leb_trans a b c : str_leb a b = true -> str_leb b c = true -> str_leb a c = true.
Proof.
  revert b c. induction a as [|x a IH]; intros [|y b] [|z c]; simpl; try done.
  destruct (N.ltb_spec x y), (N.ltb_spec y z), (N.ltb_spec x z),
    (N.eqb_spec x y), (N.eqb_spec y z), (N.eqb_spec x z); try done; try lia; eauto.
Qed.

Lemma str_leb_antisym a b : str_leb a b = true -> str_leb b a = true -> a = b.
Proof.
  revert b. induction a as [|x a IH]; intros [|y b]; simpl; try done.
  destruct (N.ltb_spec x y), (N.ltb_spec y x), (N.eqb_spec x y), (N.eqb_spec y x);
    try done; try lia.
  intros. f_equal; [done | by apply IH].
Qed.

Global Instance str_le_total : Total str_le.
Proof. intros a b. apply str_leb_total. Qed.
Global Instance str_le_trans : Transitive str_le.
Proof. intros a b c. apply str_leb_trans. Qed.
Global Instance str_le_antisym : AntiSymm (=) str_le.
Proof. intros a b. apply str_leb_antisym. Qed.

Lemma groupby_keys_sorted df : Sorted str_le (groupby_keys df).
Proof. apply (Sorted_merge_sort str_le). Qed.

Lemma groupby_keys_nodup df : NoDup (groupby_keys df).
Proof.
  unfold groupby_keys. rewrite merge_sort_Permutation. apply NoDup_remove_dups.
Qed.

Lemma elem_of_groupby_keys df key :
  key ∈ groupby_keys df <-> exists c, c ∈ df /\ case_institution c = Some key.
Proof.
  unfold groupby_keys. rewrite merge_sort_Permutation, elem_of_remove_dups.
  rewrite list_elem_of_omap. naive_solver.
Qed.

Lemma groupby_keys_permutation df df' : df ≡ₚ df' -> groupby_keys df = groupby_keys df'.
Proof.
  intros Hp. apply (Sorted_unique str_le); [apply groupby_keys_sorted.. |].
  apply NoDup_Permutation; [apply groupby_keys_nodup.. |].
  intros key. rewrite !elem_of_groupby_keys. by setoid_rewrite Hp.
Qed.

Section SummaryFacts.

Variable round_tie_up : nat -> nat -> bool.
Variable format_tie_up : nat -> nat -> bool.
Variable sort_values : list (nat * SummaryRow) -> list (nat * SummaryRow).
Hypothesis sort_values_ok : sort_contract sort_values.

Lemma group_row_permutation df df' key :
  df ≡ₚ df' -> group_row round_tie_up df key = group_row round_tie_up df' key.
Proof.
  intros Hp. unfold group_row, count_cases, count_qualified, group_of.
  by rewrite Hp.
Qed.

Lemma sorted_groups_permutation df df' :
  df ≡ₚ df' ->
  sorted_groups round_tie_up sort_values df = sorted_groups round_tie_up sort_values df'.
Proof.
  intros Hp. unfold sorted_groups. rewrite (groupby_keys_permutation _ _ Hp).
  do 3 f_equal. apply list_fmap_ext. intros _ key _. by apply group_row_permutation.
Qed.

Lemma create_summary_sheet_permutation df df' :
  df ≡ₚ df' ->
  create_summary_sheet round_tie_up format_tie_up sort_values df =
  create_summary_sheet round_tie_up format_tie_up sort_values df'.
Proof.
  intros Hp. unfold create_summary_sheet. by rewrite (sorted_groups_permutation _ _ Hp).
Qed.

(** The rows of the groups are those of the keys, permuted. *)
Lemma sorted_groups_rows df :
  sorted_groups round_tie_up sort_values df ≡ₚ group_row round_tie_up df <$> groupby_keys df.
Proof.
  unfold sorted_groups. destruct sort_values_ok as [Hperm _].
  rewrite Hperm, <- list_fmap_compose. by rewrite list_fmap_id.
Qed.

Lemma sorted_groups_institutions df :
  sum_institution <$> sorted_groups round_tie_up sort_values df ≡ₚ groupby_keys df.
Proof.
  rewrite sorted_groups_rows, <- list_fmap_compose. by rewrite list_fmap_id.
Qed.

Lemma sorted_groups_sorted df :
  StronglySorted (fun a b => sort_key (sum_institution a) ≤ sort_key (sum_institution b))
    (sorted_groups round_tie_up sort_values df).
Proof.
  unfold sorted_groups. destruct sort_values_ok as [Hperm Hsorted].
  set (keyed := (fun row => (sort_key (sum_institution row), row)) <$> _).
  assert (Forall (fun p : nat * SummaryRow => p.1 = sort_key (sum_institution p.2))
            (sort_values keyed)) as Hkeys.
  { rewrite Hperm. unfold keyed. apply Forall_fmap. by apply Forall_true. }
  assert (StronglySorted (fun a b : nat * SummaryRow => a.1 ≤ b.1) (sort_values keyed))
    as Hs.
  { apply Sorted_StronglySorted; [| apply Hsorted]. intros a b c. simpl. lia. }
  induction Hs as [|p l _ IH Hall]; simpl; [constructor |].
  apply Forall_cons in Hkeys as [Hp Hkeys]. constructor; [by apply IH |].
  apply Forall_fmap. rewrite Forall_forall in Hall, Hkeys |- *.
  intros q Hq. simpl. rewrite <- Hp, <- (Hkeys q Hq). by apply Hall.
Qed.

End SummaryFacts.

(** The sort key is the priority index, and the length of the list for
    an institution that is not in it. *)
Lemma list_index_spec l x :
  match list_index l x with
  | Ok i => l !! i = Some x /\ forall j, j < i -> l !! j <> Some x
  | Raise _ => x ∉ l
  end.
Proof.
  induction l as [|y l IH]; simpl; [apply not_elem_of_nil |].
  destruct (decide (y = x)) as [->|Hne].
  - split; [done | lia].
  - unfold mbind, exc_bind. destruct (list_index l x) as [i|e].
    + destruct IH as [Hi Hmin]. split; [done |].
      intros [|j] Hj; simpl; [congruence | apply Hmin; lia].
    + rewrite not_elem_of_cons. by split.
Qed.

Lemma sort_key_listed institution :
  listed institution -> INSTITUTION_ORDER !! sort_key institution = Some institution.
Proof.
  unfold listed, sort_key. intros Hin.
  pose proof (list_index_spec INSTITUTION_ORDER institution) as H.
  destruct (list_index INSTITUTION_ORDER institution); [by destruct H | done].
Qed.

Lemma sort_key_unlisted institution :
  ~ listed institution -> sort_key institution = length INSTITUTION_ORDER.
Proof.
  unfold listed, sort_key. intros Hout.
  pose proof (list_index_spec INSTITUTION_ORDER institution) as H.
  destruct (list_index INSTITUTION_ORDER institution); [| done].
  destruct H as [H _]. destruct Hout. by eapply list_elem_of_lookup_2.
Qed.

Lemma group_row_counts rt df key :
  sum_institution (group_row rt df key) = key /\
  sum_total (group_row rt df key) = cases_of df key /\
  sum_qualified (group_row rt df key) = qualified_of df key.
Proof.
  unfold group_row, cases_of, qualified_of, count_cases, count_qualified, group_of.
  simpl. split_and!; [done.. |]. f_equal.
  induction df as [|c df IH]; [done |].
  destruct (decide (case_institution c = Some key)) as [Hk|Hk].
  - rewrite (filter_cons_True (fun c => case_institution c = Some key)) by done.
    destruct (decide (case_verdict c = QUALIFIED)) as [Hq|Hq].
    + rewrite !filter_cons_True by done. by rewrite IH.
    + rewrite !filter_cons_False by tauto. done.
  - rewrite !filter_cons_False by tauto. done.
Qed.

Lemma sorted_groups_elem_of rt sv df row :
  sort_contract sv ->
  row ∈ sorted_groups rt sv df ->
  exists key, key ∈ groupby_keys df /\ row = group_row rt df key.
Proof.
  intros Hsv Hrow. rewrite (sorted_groups_rows rt sv Hsv) in Hrow.
  apply list_elem_of_fmap in Hrow as (key & -> & Hkey). eauto.
Qed.

Lemma cases_of_pos df key : key ∈ groupby_keys df -> 0 < cases_of df key.
Proof.
  intros (c & Hc & Hk)%elem_of_groupby_keys. unfold cases_of.
  assert (c ∈ filter (fun c => case_institution c = Some key) df) as Hin
    by by apply list_elem_of_filter.
  destruct (filter _ df); [by apply elem_of_nil in Hin | simpl; lia].
Qed.

Lemma sorted_groups_positions rt sv df i j a b :
  sort_contract sv ->
  i < j ->
  sorted_groups rt sv df !! i = Some a -> sorted_groups rt sv df !! j = Some b ->
  sort_key (sum_institution a) ≤ sort_key (sum_institution b).
Proof.
  intros Hsv Hij Hi Hj.
  pose proof (sorted_groups_sorted rt sv Hsv df) as Hs.
  revert i j Hij Hi Hj. induction Hs as [|x l _ IH Hall]; intros i j Hij Hi Hj; [done |].
  destruct j as [|j]; [lia |]. simpl in Hj. destruct i as [|i]; simpl in Hi.
  - injection Hi as ->. rewrite Forall_forall in Hall.
    apply Hall. by eapply list_elem_of_lookup_2.
  - apply (IH i j); [lia | done..].
Qed.

Lemma institutions_sorted (l : list SummaryRow) :
  StronglySorted (fun a b => sort_key (sum_institution a) ≤ sort_key (sum_institution b)) l ->
  StronglySorted (fun x y => sort_key x ≤ sort_key y) (sum_institution <$> l).
Proof.
  induction 1 as [|x l _ IH Hall]; simpl; constructor; [done |].
  by apply Forall_fmap.
Qed.

Lemma priority_example_order rt sv df a b c :
  sort_contract sv ->
  INSTITUTION_ORDER !! 2 = Some a -> INSTITUTION_ORDER !! 0 = Some b -> ~ listed c ->
  (forall i, (exists x, x ∈ df /\ case_institution x = Some i) <-> i ∈ [a; b; c]) ->
  sum_institution <$> sorted_groups rt sv df = [b; a; c].
Proof.
  intros Hsv Ha Hb Hc Hdf.
  injection Ha as <-. injection Hb as <-.
  set (a := py "蚌埠") in *. set (b := py "合肥") in *.
  assert (sort_key a = 2) as Hka by by vm_compute.
  assert (sort_key b = 0) as Hkb by by vm_compute.
  assert (sort_key c = 16) as Hkc by by rewrite sort_key_unlisted.
  set (R := fun x y : pystr => sort_key x ≤ sort_key y).
  assert (a <> b) as Hab by by vm_compute.
  assert (a <> c) as Hac by (intros <-; rewrite Hka in Hkc; lia).
  assert (b <> c) as Hbc by (intros <-; rewrite Hkb in Hkc; lia).
  assert (forall i, i ∈ sum_institution <$> sorted_groups rt sv df <-> i ∈ [b; a; c]) as Hel.
  { intros i. rewrite (sorted_groups_institutions rt sv Hsv), elem_of_groupby_keys, Hdf.
    rewrite !elem_of_cons, !elem_of_nil. tauto. }
  apply (StronglySorted_unique_strong R).
  - intros x1 x2 H1%Hel H2 H12 H21. unfold R in *.
    rewrite !elem_of_cons, elem_of_nil in H1, H2.
    destruct H1 as [->|[->|[->|[]]]], H2 as [->|[->|[->|[]]]]; try done; lia.
  - apply institutions_sorted, (sorted_groups_sorted rt sv Hsv df).
  - unfold R. repeat constructor; lia.
  - apply NoDup_Permutation; [| | done].
    + rewrite (sorted_groups_institutions rt sv Hsv). apply groupby_keys_nodup.
    + repeat (apply NoDup_cons; split); [| | | apply NoDup_nil_2];
        rewrite ?elem_of_cons, ?elem_of_nil; intuition congruence.
Qed.

(** C5, as the program has it: the summary has one row for each
    institution of the batch, with its counts, in ascending order of the
    priority index, so that unlisted institutions come after all listed
    ones, followed by one grand-total row holding the sums over the
    groups; it is the same for every order of the input rows (the order
    among unlisted institutions does not follow the input); institutions
    at priority index 0 and 2 and an unlisted one come out as index 0,
    index 2, unlisted. *)
Theorem summary_sorted_by_priority (round_tie_up format_tie_up : nat -> nat -> bool)
    (sort_values : list (nat * SummaryRow) -> list (nat * SummaryRow))
    (df : list EvaluatedCase) :
  sort_contract sort_values ->
  exists groups total,
    create_summary_sheet round_tie_up format_tie_up sort_values df = groups ++ [total] /\
    NoDup (sum_institution <$> groups) /\
    (forall i, i ∈ sum_institution <$> groups <->
               exists x, x ∈ df /\ case_institution x = Some i) /\
    (forall g, g ∈ groups ->
       sum_total g = cases_of df (sum_institution g) /\
       sum_qualified g = qualified_of df (sum_institution g)) /\
    (forall i j a b, i < j -> groups !! i = Some a -> groups !! j = Some b ->
       sort_key (sum_institution a) ≤ sort_key (sum_institution b) /\
       (~ listed (sum_institution a) -> ~ listed (sum_institution b))) /\
    (forall i, listed i -> INSTITUTION_ORDER !! sort_key i = Some i) /\
    (forall i, ~ listed i -> sort_key i = length INSTITUTION_ORDER) /\
    sum_institution total = TOTAL_LABEL /\
    sum_total total = sum_list (sum_total <$> groups) /\
    sum_qualified total = sum_list (sum_qualified <$> groups) /\
    (forall df', df' ≡ₚ df ->
       create_summary_sheet round_tie_up format_tie_up sort_values df' =
       create_summary_sheet round_tie_up format_tie_up sort_values df) /\
    (forall a b c,
       INSTITUTION_ORDER !! 2 = Some a -> INSTITUTION_ORDER !! 0 = Some b -> ~ listed c ->
       (forall i, (exists x, x ∈ df /\ case_institution x = Some i) <-> i ∈ [a; b; c]) ->
       sum_institution <$> groups = [b; a; c]).
Proof.
  intros Hsv.
  exists (sorted_groups round_tie_up sort_values df),
         (total_row format_tie_up (sorted_groups round_tie_up sort_values df)).
  split_and!; try done.
  - rewrite (sorted_groups_institutions _ _ Hsv). apply groupby_keys_nodup.
  - intros i. rewrite (sorted_groups_institutions _ _ Hsv). apply elem_of_groupby_keys.
  - intros g (key & _ & ->)%(sorted_groups_elem_of _ _ _ _ Hsv).
    destruct (group_row_counts round_tie_up df key) as (-> & ? & ?). done.
  - intros i j a b Hij Hi Hj.
    pose proof (sorted_groups_positions _ _ _ _ _ _ _ Hsv Hij Hi Hj) as Hle.
    split; [done |]. intros Ha Hb. apply sort_key_unlisted in Ha.
    apply sort_key_listed, lookup_lt_Some in Hb. lia.
  - apply sort_key_listed.
  - apply sort_key_unlisted.
  - intros df' Hp. by apply create_summary_sheet_permutation.
  - intros a b c. by apply priority_example_order.
Qed.

Global Instance key_le_total : Total key_le.
Proof. intros a b. unfold key_le. lia. Qed.

Lemma stable_sort_values_contract : sort_contract stable_sort_values.
Proof.
  split; intros l; unfold stable_sort_values.
  - apply merge_sort_Permutation.
  - apply (Sorted_merge_sort key_le).
Qed.

(** A batch met in the order unlisted, index 2, index 0. *)
Lemma summary_sorted_by_priority_witness :
  exists groups total,
    create_summary_sheet (fun _ _ => true) (fun _ _ => true) stable_sort_values
      [case_of "丙" "合格"; case_of "蚌埠" "不合格"; case_of "合肥" "合格"] = groups ++ [total] /\
    sum_institution <$> groups = [py "合肥"; py "蚌埠"; py "丙"].
Proof.
  destruct (summary_sorted_by_priority (fun _ _ => true) (fun _ _ => true)
              stable_sort_values
              [case_of "丙" "合格"; case_of "蚌埠" "不合格"; case_of "合肥" "合格"]
              stable_sort_values_contract)
    as (groups & total & Heq & _).
  exists groups, total. split; [exact Heq |].
  vm_compute in Heq.
  destruct groups as [|g1 [|g2 [|g3 [|g4 groups]]]]; try discriminate Heq.
  - injection Heq as <- <- <- _. by vm_compute.
  - exfalso. injection Heq as _ _ _ Heq. by destruct groups.
Defined.

(** C5 as stated fails: two batches that meet the same unlisted
    institutions in opposite orders get the same summary, so whatever the
    sort does it cannot follow the first encounter in both. *)
Lemma unlisted_order_ignores_first_encounter :
  ~ exists round_tie_up format_tie_up sort_values,
      sort_contract sort_values /\
      summary_unlisted
        (create_summary_sheet round_tie_up format_tie_up sort_values batch_jia_yi) =
        first_encounter_unlisted batch_jia_yi /\
      summary_unlisted
        (create_summary_sheet round_tie_up format_tie_up sort_values batch_yi_jia) =
        first_encounter_unlisted batch_yi_jia.
Proof.
  intros (rt & ft & sv & Hsv & H1 & H2).
  rewrite (create_summary_sheet_permutation rt ft sv batch_jia_yi batch_yi_jia) in H1.
  - rewrite H1 in H2. by vm_compute in H2.
  - apply Permutation_swap.
Qed.

(** With a stable sort the two unlisted institutions come out in the
    order of their names, not of their occurrence. *)
Example summary_of_jia_yi :
  sum_institution <$>
    create_summary_sheet (fun _ _ => true) (fun _ _ => true) stable_sort_values batch_jia_yi
  = [py "乙"; py "甲"; py "合计"].
Proof. by vm_compute. Qed.

(** ** Rates *)

Lemma digits_of_uint_digits d : Forall (fun c => is_digit c = true) (digits_of_uint d).
Proof. induction d; simpl; constructor; done. Qed.

Lemma str_of_nat_nonempty n : str_of_nat n <> [].
Proof.
  unfold str_of_nat. destruct (Nat.to_uint n) eqn:E; simpl; try done.
  pose proof (Unsigned.of_to n) as H. rewrite E in H. simpl in H. by subst n.
Qed.

Lemma str_of_nat_digit d :
  d < 10 -> exists c, str_of_nat d = [c] /\ is_digit c = true.
Proof.
  intros Hd. do 10 (destruct d as [|d]; [by eexists |]). lia.
Qed.

Lemma render_tenths_one_decimal n : one_decimal_percent (render_tenths n ++ py "%").
Proof.
  unfold one_decimal_percent, render_tenths.
  destruct (str_of_nat_digit (n mod 10)) as (d & Hd & Hdigit).
  { apply Nat.mod_upper_bound. lia. }
  exists (str_of_nat (n / 10)), d. rewrite Hd. split_and!.
  - by rewrite <- !app_assoc.
  - apply str_of_nat_nonempty.
  - apply digits_of_uint_digits.
  - done.
Qed.

Lemma nearest_tenth_is_nearest tie_up q t :
  0 < t -> is_nearest_tenth (nearest_tenth tie_up q t) q t.
Proof.
  intros Ht. unfold is_nearest_tenth, nearest_tenth.
  pose proof (Nat.div_mod_eq (1000 * q) t) as Hdiv.
  pose proof (Nat.mod_upper_bound (1000 * q) t) as Hmod.
  set (n := 1000 * q / t) in *. set (r := 1000 * q mod t) in *.
  repeat case_decide; [nia | nia |]. destruct (tie_up q t); nia.
Qed.

(** C8: in every row of the summary, institution rows and grand total
    alike, a row with cases carries the rate qualified / total * 100
    rounded to a nearest tenth, written with one decimal and a percent
    sign; a row without cases carries ["0%"]. *)
Theorem summary_rate_one_decimal (round_tie_up format_tie_up : nat -> nat -> bool)
    (sort_values : list (nat * SummaryRow) -> list (nat * SummaryRow))
    (df : list EvaluatedCase) (row : SummaryRow) :
  sort_contract sort_values ->
  row ∈ create_summary_sheet round_tie_up format_tie_up sort_values df ->
  (sum_total row = 0 -> sum_rate row = py "0%") /\
  (0 < sum_total row ->
     exists n,
       is_nearest_tenth n (sum_qualified row) (sum_total row) /\
       sum_rate row = render_tenths n ++ py "%" /\
       one_decimal_percent (sum_rate row)).
Proof.
  intros Hsv [Hrow | Hrow%list_elem_of_singleton]%elem_of_app.
  - apply (sorted_groups_elem_of _ _ _ _ Hsv) in Hrow as (key & Hkey & ->).
    pose proof (cases_of_pos _ _ Hkey) as Hpos.
    destruct (group_row_counts round_tie_up df key) as (_ & Ht & Hq).
    rewrite Ht. split; [lia |]. intros _.
    exists (nearest_tenth round_tie_up (sum_qualified (group_row round_tie_up df key))
              (cases_of df key)).
    assert (sum_rate (group_row round_tie_up df key) =
            render_tenths (nearest_tenth round_tie_up
              (sum_qualified (group_row round_tie_up df key)) (cases_of df key)) ++ py "%")
      as Hrate.
    { unfold group_row. cbn [sum_rate sum_qualified].
      change (count_cases (group_of df key)) with (cases_of df key).
      unfold series_rate. destruct (cases_of df key); [lia | done]. }
    split_and!.
    + by apply nearest_tenth_is_nearest.
    + done.
    + rewrite Hrate. apply render_tenths_one_decimal.
  - subst row. unfold total_row. simpl.
    set (groups := sorted_groups round_tie_up sort_values df).
    case_decide as Hpos.
    + split; [lia |]. intros _. eexists. split_and!.
      * by apply nearest_tenth_is_nearest.
      * done.
      * apply render_tenths_one_decimal.
    + split; [done | lia].
Qed.

(** One qualified case out of three: 33.3%. *)
Lemma summary_rate_one_decimal_witness :
  exists n,
    is_nearest_tenth n 1 3 /\
    render_tenths n ++ py "%" = py "33.3%".
Proof.
  pose (df := [case_of "合肥" "合格"; case_of "合肥" "不合格"; case_of "合肥" "不合格"]).
  pose (row := {| sum_institution := py "合肥"; sum_total := 3; sum_qualified := 1;
                  sum_rate := py "33.3%" |}).
  assert (row ∈ create_summary_sheet (fun _ _ => true) (fun _ _ => true)
                  stable_sort_values df) as Hrow.
  { vm_compute. left. }
  destruct (summary_rate_one_decimal (fun _ _ => true) (fun _ _ => true)
              stable_sort_values df row stable_sort_values_contract Hrow) as [_ H].
  destruct H as (n & Hn & Hrate & _); [simpl; lia |].
  exists n. split; [exact Hn | symmetry; exact Hrate].
Defined.

(** The summary of a batch whose only case has no institution: the grand
    total alone, without cases. *)
Example summary_without_institution :
  (fun row => (sum_institution row, sum_total row, sum_rate row)) <$>
    create_summary_sheet (fun _ _ => true) (fun _ _ => true) stable_sort_values
      [ {| case_institution := None; case_verdict := py "合格" |} ] =
  [ (py "合计", 0, py "0%") ].
Proof. by vm_compute. Qed.


(** The delay counts whole days of the difference: a report seven days and
    twenty-three hours after the accident is within the limit. *)
Example delay_counts_whole_days :
  timedelta_days (8 * NS_PER_DAY - 3600000000000 - 1 * NS_PER_DAY) = 6%Z /\
  timedelta_days (9 * NS_PER_DAY - 3600000000000 - 1 * NS_PER_DAY) = 7%Z /\
  timedelta_days (1 * NS_PER_DAY - 3600000000000 - 1 * NS_PER_DAY) = (-1)%Z /\
  check_delay day_to_datetime ns_Timestamp (TimeObj NS_PER_DAY)
    (TimeObj (9 * NS_PER_DAY - 3600000000000)%Z) None = Ok (false, true, []).
Proof. by vm_compute. Qed.

(** Examples for the other rules. *)
Example classify_examples :
  classify_insurance (Some (py "建筑施工行业安全生产责任保险")) = py "安责类" /\
  classify_insurance (Some (py "建工团意险")) = py "安责类" /\
  classify_insurance (Some (py "家庭财产险")) = py "其他类" /\
  classify_insurance None = py "其他类".
Proof. by vm_compute. Qed.

Example check_mandatory_examples :
  check_mandatory
    (Some (py "于3月5日查勘，现场位于仓库，事故发生时间为3月1日，出险地点为厂区")) =
    Ok (true, []) /\
  check_mandatory (Some (py "于3月5日查勘，事故发生时间为3月1日，出险地点为厂区")) =
    Ok (false, [py "查勘地点"; py "查勘方式"]).
Proof. by vm_compute. Qed.

Example check_core_elements_examples :
  check_core_elements (py "财产类") (Some (py "标的分类、维修方案")) =
    Ok (false, 2, [py "原因类型"; py "财务账册"; py "残值"]) /\
  check_core_elements (py "雇主类") (Some (py "伤情稳定，已送医院，岗位为焊工")) =
    Ok (true, 3, [py "部位"; py "工种"; py "工伤"; py "劳动关系"; py "分包"; py "考勤"]).
Proof. by vm_compute. Qed.

Example check_overlap_examples :
  let outcome (report survey : string) :=
    match check_overlap (Some (py report)) (Some (py survey)) with
    | Ok (passed, rate) => Some (passed, this rate)
    | Raise _ => None
    end in
  outcome "abcde"%string " abcdx "%string = Some (false, 4 # 5) /\
  outcome "abcdef"%string "abcdxy"%string = Some (true, 2 # 3) /\
  outcome "  "%string "abc"%string = Some (true, 0 # 1).
Proof. by vm_compute. Qed.

(** A decidable statement on concrete data, by evaluation. *)
Ltac by_compute := apply (bool_decide_unpack _); vm_compute; exact I.

(** A keyword of the second category, and a text with no keyword. *)
Lemma classify_insurance_first_match_witness :
  classify_insurance (Some (py "建工团意险")) = py "安责类" /\
  classify_insurance (Some (py "家庭财产险")) = py "其他类".
Proof.
  split.
  - destruct (classify_insurance_first_match (Some (py "建工团意险"))) as (_ & H & _).
    destruct (H _ eq_refl) as [Hfirst _].
    apply (Hfirst [(py "雇主类", [py "雇主责任"])] (py "安责类")
             [py "安全生产责任"; py "建筑施工行业安全生产责任"; py "建工团意"]
             (drop 2 INSURANCE_CATEGORIES)).
    + by vm_compute.
    + exists (py "建工团意"). split; [by_compute |]. by exists [], (py "险").
    + intros c ks keyword [= -> ->]%list_elem_of_singleton
        ->%list_elem_of_singleton Hs%contains_spec.
      by vm_compute in Hs.
  - destruct (classify_insurance_first_match (Some (py "家庭财产险"))) as (_ & H & _).
    destruct (H _ eq_refl) as [_ Hnone]. apply Hnone.
    intros c ks keyword Hentry Hkw Hs%contains_spec.
    assert (any_keyword_in ks (py "家庭财产险") = false) as Hno.
    { assert (Forall (fun entry : pystr * list pystr =>
                        any_keyword_in entry.2 (py "家庭财产险") = false)
                INSURANCE_CATEGORIES) as Hall by by_compute.
      exact (proj1 (Forall_forall _ _) Hall (c, ks) Hentry). }
    assert (any_keyword_in ks (py "家庭财产险") = true); [| congruence].
    apply any_keyword_in_spec. exists keyword. split; [done | by apply contains_spec].
Defined.

(** A summary without survey location and survey method. *)
Lemma check_mandatory_missing_items_witness :
  exists missing,
    check_mandatory (Some (py "于3月5日查勘，事故发生时间为3月1日，出险地点为厂区")) =
      Ok (bool_decide (missing = []), missing) /\
    missing = [py "查勘地点"; py "查勘方式"].
Proof.
  destruct (check_mandatory_missing_items
              (Some (py "于3月5日查勘，事故发生时间为3月1日，出险地点为厂区"))) as [_ H].
  destruct (H _ eq_refl) as (missing & Heq & _).
  exists missing. split; [exact Heq |].
  vm_compute in Heq. by injection Heq as _ <-.
Defined.

(** Two of the nine elements of the employer category occur in the text. *)
Lemma core_elements_partition_witness :
  exists passed matched_count missing,
    check_core_elements (py "雇主类") (Some (py "伤情稳定，已送医院")) =
      Ok (passed, matched_count, missing) /\
    matched_count + length missing = 9 /\
    py "伤情" ∉ missing.
Proof.
  destruct (core_elements_partition (py "雇主类") (py "伤情稳定，已送医院"))
    as (passed & n & missing & Heq & Hlen & _ & Hverbatim).
  exists passed, n, missing. split_and!; [exact Heq | exact Hlen |].
  apply Hverbatim; [by_compute |]. by exists [], (py "稳定，已送医院").
Defined.

(** Four common characters out of five. *)
Lemma check_overlap_rate_witness :
  exists rate,
    check_overlap (Some (py "abcde")) (Some (py " abcdx ")) =
      Ok (bool_decide (rate < Qc_of_Z 4 / Qc_of_Z 5)%Qc, rate) /\
    (0 ≤ rate)%Qc /\ (rate ≤ 1)%Qc.
Proof.
  destruct (check_overlap_rate (Some (py "abcde")) (Some (py " abcdx "))) as (_ & H & _).
  eexists. apply (H _ _ eq_refl eq_refl); by vm_compute.
Defined.

(** A timestamp whose conversion raises, and an absent one. *)
Example check_delay_fail_open_examples :
  check_delay day_to_datetime ns_Timestamp (TimeStr (py "昨天")) (TimeStr (py "10"))
    (Some (py "现场查勘")) = Ok (false, true, []) /\
  check_delay day_to_datetime ns_Timestamp (TimeStr (py "1")) TimeNa None =
    Ok (false, true, []).
Proof. by vm_compute. Qed.

(** An accident time that is the empty text, and a report time that is the
    text ['NaT']: the rule is triggered and fails. *)
Lemma check_delay_not_a_time_witness :
  check_delay day_to_datetime ns_Timestamp (TimeStr []) (TimeObj (10 * NS_PER_DAY)%Z)
    (Some (py "现场查勘")) =
    Ok (true, false, py "报案延迟nan天，查勘摘要未包含延迟原因说明") /\
  check_delay day_to_datetime ns_Timestamp (TimeStr (py "1")) (TimeStr (py "NaT")) None <>
    Ok (false, true, []).
Proof.
  split.
  - destruct (check_delay_not_a_time day_to_datetime ns_Timestamp
                (TimeStr []) (TimeObj (10 * NS_PER_DAY)%Z) (Some (py "现场查勘"))
                NaT (Time (10 * NS_PER_DAY)) eq_refl eq_refl) as [H _]; [by left |].
    exact H.
  - destruct (check_delay_not_a_time day_to_datetime ns_Timestamp
                (TimeStr (py "1")) (TimeStr (py "NaT")) None
                (Time (1 * NS_PER_DAY)) NaT eq_refl eq_refl) as [_ H]; [by right |].
    exact H.
Defined.

(** The case of such a row is unqualified on the delay rule alone. *)
Example not_a_time_case_unqualified :
  evaluate_case day_to_datetime ns_Timestamp percent_truncated
    {| row_insurance_type := Some (py "财产一切险");
       row_accident_time := TimeStr [];
       row_report_time := TimeObj (10 * NS_PER_DAY)%Z;
       row_report_summary := Some (py "仓库起火，货物受损");
       row_survey_summary :=
         Some (py "于3月5日查勘，现场位于仓库，事故发生时间为3月1日，出险地点为厂区，标的分类为厂房，维修方案已定，残值已估") |}
  = Ok (UNQUALIFIED, py "报案延迟nan天，查勘摘要未包含延迟原因说明").
Proof. by vm_compute. Qed.

(** A case failing three rules, and a qualified one. *)
Lemma evaluate_case_verdict_witness :
  (exists reasons,
     evaluate_case day_to_datetime ns_Timestamp percent_truncated
       (sample_row "到场查看，货物受损") = Ok (UNQUALIFIED, join (py "；") reasons) /\
     length reasons = 3) /\
  evaluate_case day_to_datetime ns_Timestamp percent_truncated
    (sample_row "于3月5日查勘，现场位于仓库，事故发生时间为3月1日，出险地点为厂区，标的分类为厂房，原因分类为电气，维修方案已定")
  = Ok (QUALIFIED, []).
Proof.
  split.
  - destruct (evaluate_case_verdict day_to_datetime ns_Timestamp percent_truncated
                (sample_row "到场查看，货物受损"))
      as (m & d & c & o & Hm & Hd & Hc & Ho & _ & Hcase & _).
    vm_compute in Hm. injection Hm as <-.
    vm_compute in Hd. injection Hd as <-.
    vm_compute in Hc. injection Hc as <-.
    vm_compute in Ho. injection Ho as <-.
    cbn [fst snd delay_fails andb negb] in Hcase.
    eexists. split; [exact Hcase | reflexivity].
  - destruct (evaluate_case_verdict day_to_datetime ns_Timestamp percent_truncated
                (sample_row "于3月5日查勘，现场位于仓库，事故发生时间为3月1日，出险地点为厂区，标的分类为厂房，原因分类为电气，维修方案已定"))
      as (m & d & c & o & Hm & Hd & Hc & Ho & _ & Hcase & _).
    vm_compute in Hm. injection Hm as <-.
    vm_compute in Hd. injection Hd as <-.
    vm_compute in Hc. injection Hc as <-.
    vm_compute in Ho. injection Ho as <-.
    exact Hcase.
Defined.

(** The comparison with [0.8] in binary64 agrees with the comparison of
    the exact quotient with 4/5: a rounded quotient [y] within relative
    error 2^-53 of [a / b] lies on the same side of the binary64 constant
    as [a / b] of 4/5.  (When [a / b] is 4/5 its rounding is that constant.) *)
Lemma binary64_threshold_exact (a : Z) (b : positive) (y : Q) :
  (0 <= a)%Z -> (Zpos b <= 2 ^ 50)%Z -> (5 * a <> 4 * Zpos b)%Z ->
  (Qabs (y - (a # b)) <= (1 # 9007199254740992) * (a # b))%Q ->
  (y < DOUBLE_0_8)%Q <-> (5 * a < 4 * Zpos b)%Z.
Proof.
  intros Ha Hb Hne Herr. apply Qabs_Qle_condition in Herr as [Hlo Hhi].
  unfold DOUBLE_0_8.
  assert (0 <= a # b)%Q as Hx by (unfold Qle; simpl; lia).
  split.
  - intros Hy. destruct (Z.lt_ge_cases (5 * a) (4 * Zpos b)) as [|Hge]; [done |].
    assert ((4 # 5) + (1 # 5629499534213120) <= a # b)%Q as Hgap.
    { unfold Qle, Qplus. simpl. lia. }
    lra.
  - intros Hlt.
    assert ((a # b) <= (4 # 5) - (1 # 5629499534213120))%Q as Hgap.
    { unfold Qle, Qminus, Qplus, Qopp. simpl. lia. }
    lra.
Qed.

(** * Further properties *)

(** ** Keywords that never decide *)

Lemma substring_trans a b c : substring a b -> substring b c -> substring a c.
Proof.
  intros (p1 & q1 & ->) (p2 & q2 & ->).
  exists (p2 ++ p1), (q1 ++ q2). by rewrite <- !app_assoc.
Qed.

Lemma substring_extend needle pre text post :
  substring needle text -> substring needle (pre ++ text ++ post).
Proof. intros H. eapply substring_trans; [exact H | by exists pre, post]. Qed.

Lemma any_keyword_in_shadowed k long ks text :
  substring k long ->
  any_keyword_in (k :: long :: ks) text = any_keyword_in (k :: ks) text.
Proof.
  intros Hsub. simpl. destruct (contains k text) eqn:Hk; [done |].
  destruct (contains long text) eqn:Hlong; [| done].
  apply contains_spec in Hlong.
  assert (contains k text = true) by (apply contains_spec; by eapply substring_trans).
  congruence.
Qed.


(** An outcome that passes without a reason. *)
Ltac no_reason triggered :=
  exists triggered, true, [];
  split; [done | split; [done | split; [intros H; by destruct H | by intros [? ?]]]].

Section DelayFacts.

Context {obj : Type}.
Variable to_datetime : pystr -> Exc datetime.
Variable Timestamp : obj -> Exc datetime.


(** X2: the delay rule has three outcomes only: not triggered and passed,
    triggered and passed, triggered and failed.  It never fails without
    being triggered, and it gives a reason exactly when it fails. *)
Theorem check_delay_outcomes (accident_time report_time : timecell obj)
    (survey_summary : cell) :
  exists triggered passed reason,
    check_delay to_datetime Timestamp accident_time report_time survey_summary =
      Ok (triggered, passed, reason) /\
    (passed = false -> triggered = true) /\
    (reason <> [] <-> triggered = true /\ passed = false).
Proof.
  assert (forall d, delay_reason_absent d <> []) as Habsent.
  { intros d. unfold delay_reason_absent.
    destruct (py "报案延迟") eqn:E; [by vm_compute in E | done]. }
  assert (forall d, delay_reason_nokeyword d <> []) as Hnokey.
  { intros d. unfold delay_reason_nokeyword.
    destruct (py "报案延迟") eqn:E; [by vm_compute in E | done]. }
  unfold check_delay, check_delay_body, try_except, mbind, exc_bind.
  destruct (time_isna accident_time || time_isna report_time); [no_reason false |].
  destruct (convert_time to_datetime Timestamp accident_time) as [a|];
    [| no_reason false].
  destruct (convert_time to_datetime Timestamp report_time) as [r|];
    [| no_reason false].
  destruct (days_le _ _); [no_reason false |].
  destruct survey_summary as [text|].
  - destruct (any_keyword_in DELAY_KEYWORDS text); [no_reason true |].
    eexists true, false, _. split; [done |]. split; [done |]. split; [done |].
    intros _. apply Hnokey.
  - eexists true, false, _. split; [done |]. split; [done |]. split; [done |].
    intros _. apply Habsent.
Qed.

End DelayFacts.


(** X3: the keyword ['建筑施工行业安全生产责任'] never decides a
    classification: it contains the keyword ['安全生产责任'] that
    precedes it in the same category, so the table without it classifies
    every text alike. *)
Theorem classify_shadowed_keyword (text : pystr) :
  classify_scan INSURANCE_CATEGORIES text = classify_scan SHORT_INSURANCE_CATEGORIES text.
Proof.
  change INSURANCE_CATEGORIES with
    ((py "雇主类", [py "雇主责任"]) ::
     (py "安责类", py "安全生产责任" :: py "建筑施工行业安全生产责任" :: [py "建工团意"]) ::
     drop 2 SHORT_INSURANCE_CATEGORIES).
  change SHORT_INSURANCE_CATEGORIES with
    ((py "雇主类", [py "雇主责任"]) ::
     (py "安责类", py "安全生产责任" :: [py "建工团意"]) ::
     drop 2 SHORT_INSURANCE_CATEGORIES) at 2.
  cbn [classify_scan].
  rewrite (any_keyword_in_shadowed (py "安全生产责任") (py "建筑施工行业安全生产责任")).
  - done.
  - by exists (py "建筑施工行业"), [].
Qed.

(** X4: every category that the classification can return has an element
    list of its own, so a case never falls back on the default of the
    lookup; the list has at least four elements, which makes three
    matches required, except for the other category, whose list has two. *)
Theorem classified_category_has_elements (insurance_type : cell) :
  exists elements,
    dict_lookup CORE_ELEMENTS (classify_insurance insurance_type) = Some elements /\
    (classify_insurance insurance_type <> OTHER ->
       Nat.min 3 (length elements) = 3) /\
    (classify_insurance insurance_type = OTHER ->
       Nat.min 3 (length elements) = 2).
Proof.
  assert (Forall (fun category =>
            exists elements,
              dict_lookup CORE_ELEMENTS category = Some elements /\
              (category <> OTHER -> Nat.min 3 (length elements) = 3) /\
              (category = OTHER -> Nat.min 3 (length elements) = 2))
            (OTHER :: dict_keys INSURANCE_CATEGORIES)) as Hall.
  { repeat constructor;
      (eexists; split; [by vm_compute |]; split; intros H; [by vm_compute | ]);
      first [by vm_compute | by vm_compute in H]. }
  apply (proj1 (Forall_forall _ _) Hall).
  destruct insurance_type as [text|]; unfold classify_insurance; [| left].
  destruct (classify_scan INSURANCE_CATEGORIES text) eqn:E; [| left].
  right. by apply classify_scan_label in E.
Qed.

(** ** More text never hurts *)

Lemma occurs_extend r pre text post : occurs r text -> occurs r (pre ++ text ++ post).
Proof.
  intros (p & w & q & -> & Hm). exists (pre ++ p), w, (q ++ post).
  split; [by rewrite <- !app_assoc | done].
Qed.

Lemma pattern_found_extend pattern pre text post :
  pattern_found pattern text -> pattern_found pattern (pre ++ text ++ post).
Proof. intros (r & Hr & Ho). exists r. split; [done | by apply occurs_extend]. Qed.

Lemma check_mandatory_present text :
  check_mandatory (Some text) =
    Ok (bool_decide
          ((filter (fun entry => item_missing text entry = true) MANDATORY_PATTERNS).*1 = []),
        (filter (fun entry => item_missing text entry = true) MANDATORY_PATTERNS).*1).
Proof.
  unfold check_mandatory.
  rewrite (mandatory_loop_filter _ _ _ mandatory_patterns_compile).
  unfold mbind, exc_bind. rewrite app_nil_l. do 2 f_equal.
  apply bool_decide_ext. by destruct (_.*1).
Qed.

Lemma item_missing_extend pre text post entry :
  entry ∈ MANDATORY_PATTERNS ->
  item_missing (pre ++ text ++ post) entry = true -> item_missing text entry = true.
Proof.
  intros Hentry. destruct entry as [item pattern].
  pose proof (proj1 (Forall_forall _ _) mandatory_patterns_compile _ Hentry) as Hc.
  rewrite !item_missing_spec by done.
  intros Hnot Hfound. by apply Hnot, pattern_found_extend.
Qed.

(** X5: text added before or after a summary never adds a missing
    mandatory item: the items missing from the longer text are missing
    from the shorter one, and a summary that passes still passes. *)
Theorem mandatory_more_text_never_hurts (pre text post : pystr) :
  exists passed missing passed' missing',
    check_mandatory (Some text) = Ok (passed, missing) /\
    check_mandatory (Some (pre ++ text ++ post)) = Ok (passed', missing') /\
    (forall item, item ∈ missing' -> item ∈ missing) /\
    (passed = true -> passed' = true).
Proof.
  eexists _, _, _, _. split; [apply check_mandatory_present |].
  split; [apply check_mandatory_present |].
  assert (forall item,
    item ∈ (filter (fun entry => item_missing (pre ++ text ++ post) entry = true)
              MANDATORY_PATTERNS).*1 ->
    item ∈ (filter (fun entry => item_missing text entry = true) MANDATORY_PATTERNS).*1)
    as Hsub.
  { intros item (entry & -> & [Hmiss Hin]%list_elem_of_filter)%list_elem_of_fmap.
    apply list_elem_of_fmap. exists entry. split; [done |].
    apply list_elem_of_filter. split; [| done]. by eapply item_missing_extend. }
  split; [exact Hsub |].
  intros Hpass%bool_decide_eq_true. apply bool_decide_eq_true.
  destruct (_.*1) as [|item rest] eqn:E at 1; [done |].
  assert (item ∈ (filter (fun entry => item_missing text entry = true)
                    MANDATORY_PATTERNS).*1) as Hin.
  { apply Hsub. rewrite E. left. }
  rewrite Hpass in Hin. by apply elem_of_nil in Hin.
Qed.

Lemma element_found_extend category e pre text post :
  e ∈ elements_of category ->
  element_found e text = true -> element_found e (pre ++ text ++ post) = true.
Proof.
  intros He. rewrite !(element_found_search _ _ _ He), !orb_true_iff.
  rewrite !search_spec, !contains_spec.
  intros [H|H]; [left; by apply occurs_extend | right; by apply substring_extend].
Qed.

Lemma filter_length_mono {A} (P Q : A -> Prop) `{!forall x, Decision (P x)}
    `{!forall x, Decision (Q x)} (l : list A) :
  (forall x, x ∈ l -> P x -> Q x) -> length (filter P l) ≤ length (filter Q l).
Proof.
  induction l as [|x l IH]; intros Himp; [done |].
  assert (length (filter P l) ≤ length (filter Q l)) as Hle.
  { apply IH. intros y Hy. apply Himp. by right. }
  destruct (decide (P x)) as [HP|HP].
  - rewrite (filter_cons_True P), (filter_cons_True Q); [simpl; lia | | done].
    apply Himp; [left | done].
  - rewrite (filter_cons_False P) by done. destruct (decide (Q x)).
    + rewrite filter_cons_True by done. simpl. lia.
    + by rewrite filter_cons_False.
Qed.

(** X6: text added before or after a summary never loses a core element:
    the matched count does not decrease, the elements missing from the
    longer text are missing from the shorter one, and a summary that
    passes still passes. *)
Theorem core_more_text_never_hurts (category pre text post : pystr) :
  exists passed count missing passed' count' missing',
    check_core_elements category (Some text) = Ok (passed, count, missing) /\
    check_core_elements category (Some (pre ++ text ++ post)) =
      Ok (passed', count', missing') /\
    count ≤ count' /\
    (forall e, e ∈ missing' -> e ∈ missing) /\
    (passed = true -> passed' = true).
Proof.
  eexists _, _, _, _, _, _. split; [apply check_core_elements_present |].
  split; [apply check_core_elements_present |].
  assert (length (filter (fun e => element_found e text = true) (elements_of category)) ≤
          length (filter (fun e => element_found e (pre ++ text ++ post) = true)
                    (elements_of category))) as Hcount.
  { apply filter_length_mono. intros e He. by apply (element_found_extend category). }
  split_and!.
  - exact Hcount.
  - intros e [Hnot He]%list_elem_of_filter. apply list_elem_of_filter.
    split; [| done]. intros Hf. apply Hnot. by apply (element_found_extend category).
  - intros Hpass%bool_decide_eq_true. apply bool_decide_eq_true. lia.
Qed.

(** X7: for every element of the table the search for its pattern alone
    decides the match: the test [element in text] that follows it never
    adds a match, since the pattern matches wherever the element occurs. *)
Theorem element_substring_test_redundant (category e text : pystr) :
  e ∈ elements_of category ->
  re_search (fuzzy_pattern e) text = Ok (element_found e text).
Proof.
  intros He. rewrite (element_found_search _ _ _ He).
  rewrite (re_search_compiled _ _ _ (element_compiles _ _ He)). f_equal.
  destruct (contains e text) eqn:Hc; [| by rewrite orb_false_r].
  rewrite orb_true_r. apply search_spec. apply contains_spec in Hc.
  unfold element_regex. destruct (split_suffix e) as [[[stem c1] c2]|] eqn:E.
  - apply split_suffix_elim in E as [-> _]. apply occurs_relaxed.
    exists []. split_and!; [simpl; lia | apply not_elem_of_nil |].
    eapply substring_trans; [| exact Hc]. exists [], [c2]. by rewrite <- app_assoc.
  - by apply occurs_lit.
Qed.

(** ['维修方式'] in a text that names it, and in one that does not. *)
Lemma element_substring_test_redundant_witness :
  re_search (fuzzy_pattern (py "维修方式")) (py "维修方式为更换") = Ok true /\
  re_search (fuzzy_pattern (py "维修方式")) (py "已更换") = Ok false.
Proof.
  assert (py "维修方式" ∈ elements_of (py "财产类")) as He
    by (apply (bool_decide_unpack _); vm_compute; exact I).
  split.
  - rewrite (element_substring_test_redundant (py "财产类") _ (py "维修方式为更换") He).
    by vm_compute.
  - rewrite (element_substring_test_redundant (py "财产类") _ (py "已更换") He).
    by vm_compute.
Defined.

(** ** The overlap rule *)

Lemma check_overlap_cases report survey :
  check_overlap (Some report) (Some survey) =
    if decide (strip report = [] \/ strip survey = []) then Ok (true, 0%Qc)
    else Ok (bool_decide (overlap_rate_of (strip report) (strip survey) < threshold)%Qc,
             overlap_rate_of (strip report) (strip survey)).
Proof.
  case_decide as Hempty.
  - unfold check_overlap. destruct Hempty as [-> | ->]; [done |].
    by destruct (strip report).
  - apply check_overlap_nonempty; tauto.
Qed.

Lemma overlap_rate_of_comm a b : overlap_rate_of a b = overlap_rate_of b a.
Proof.
  unfold overlap_rate_of.
  by rewrite (comm_L (∩) (charset a)), Nat.max_comm.
Qed.

(** X8: the overlap rule is symmetric: exchanging the report summary and
    the survey summary gives the same verdict and the same rate. *)
Theorem check_overlap_symmetric (report_summary survey_summary : cell) :
  check_overlap report_summary survey_summary =
  check_overlap survey_summary report_summary.
Proof.
  destruct report_summary as [report|], survey_summary as [survey|]; try done.
  rewrite !check_overlap_cases, overlap_rate_of_comm.
  repeat case_decide; tauto || done.
Qed.

Lemma lstrip_all_space ws : all_space ws -> lstrip ws = [].
Proof. induction 1 as [|c ws Hc _ IH]; simpl; [done |]. by rewrite Hc. Qed.

Lemma lstrip_app a b :
  lstrip (a ++ b) = match lstrip a with [] => lstrip b | _ :: _ => lstrip a ++ b end.
Proof.
  induction a as [|c a IH]; simpl; [by destruct (lstrip b) |].
  by destruct (is_space c).
Qed.

Lemma lstrip_space_app ws s : all_space ws -> lstrip (ws ++ s) = lstrip s.
Proof. intros H. by rewrite lstrip_app, (lstrip_all_space _ H). Qed.

Lemma all_space_rev ws : all_space ws -> all_space (rev ws).
Proof. unfold all_space. apply Forall_rev. Qed.

Lemma strip_outer_whitespace ws s ws' :
  all_space ws -> all_space ws' -> strip (ws ++ s ++ ws') = strip s.
Proof.
  intros Hws Hws'. unfold strip. rewrite (lstrip_space_app _ _ Hws), lstrip_app.
  destruct (lstrip s) as [|c t] eqn:E.
  - by rewrite (lstrip_all_space _ Hws').
  - rewrite rev_app_distr. by rewrite (lstrip_space_app _ _ (all_space_rev _ Hws')).
Qed.

(** X9: whitespace before and after a summary does not change the
    outcome of the overlap rule. *)
Theorem check_overlap_ignores_outer_whitespace (ws report ws' : pystr)
    (survey_summary : cell) :
  all_space ws -> all_space ws' ->
  check_overlap (Some (ws ++ report ++ ws')) survey_summary =
  check_overlap (Some report) survey_summary.
Proof.
  intros Hws Hws'. destruct survey_summary as [survey|]; [| done].
  by rewrite !check_overlap_cases, (strip_outer_whitespace _ _ _ Hws Hws').
Qed.

(** A summary between a tab and a line break. *)
Lemma check_overlap_ignores_outer_whitespace_witness :
  check_overlap (Some ([9%N; 32%N] ++ py "仓库起火" ++ [10%N])) (Some (py "仓库失火")) =
  check_overlap (Some (py "仓库起火")) (Some (py "仓库失火")).
Proof.
  apply check_overlap_ignores_outer_whitespace; by repeat constructor.
Defined.

Lemma charset_empty_iff s : charset s = ∅ <-> s = [].
Proof.
  split; [| by intros ->]. destruct s as [|c s]; [done |].
  intros H. pose proof (charset_size_pos c s) as Hpos.
  rewrite H, size_empty in Hpos. lia.
Qed.

(** X10: the overlap rule sees the two trimmed texts only through their
    sets of distinct characters: summaries with the same set get the same
    outcome, and a survey summary that has exactly the characters of the
    report summary, in any order and number, fails with rate 1. *)
Theorem check_overlap_by_character_sets (report report' survey : pystr) :
  charset (strip report) = charset (strip report') ->
  check_overlap (Some report) (Some survey) = check_overlap (Some report') (Some survey) /\
  (charset (strip report) = charset (strip survey) -> strip report <> [] ->
   check_overlap (Some report) (Some survey) = Ok (false, 1%Qc)).
Proof.
  intros Hsame. split.
  - rewrite !check_overlap_cases. unfold overlap_rate_of. rewrite Hsame.
    assert (strip report = [] <-> strip report' = []) as Hiff
      by by rewrite <- !charset_empty_iff, Hsame.
    repeat case_decide; tauto || done.
  - intros Heq Hne. rewrite check_overlap_cases.
    assert (strip survey <> []) as Hne'.
    { intros H. apply Hne, charset_empty_iff. rewrite Heq. by apply charset_empty_iff. }
    rewrite decide_False by tauto. unfold overlap_rate_of.
    rewrite <- Heq, (idemp_L (∩) (charset (strip report))), Nat.max_id.
    rewrite ratio_same; [done |].
    destruct (strip report); [done | apply charset_size_pos].
Qed.

(** A survey summary that reorders and repeats the report summary. *)
Lemma check_overlap_by_character_sets_witness :
  check_overlap (Some (py "起火仓库")) (Some (py "仓库起火")) =
    check_overlap (Some (py "仓库起火起火")) (Some (py "仓库起火")) /\
  check_overlap (Some (py "起火仓库")) (Some (py "仓库起火")) = Ok (false, 1%Qc).
Proof.
  destruct (check_overlap_by_character_sets (py "起火仓库") (py "仓库起火起火")
              (py "仓库起火")) as [H1 H2].
  - apply leibniz_equiv. intros c. unfold charset. rewrite !elem_of_list_to_set.
    vm_compute strip. rewrite !elem_of_cons, !elem_of_nil. tauto.
  - split; [exact H1 |]. apply H2.
    + apply leibniz_equiv. intros c. unfold charset. rewrite !elem_of_list_to_set.
      vm_compute strip. rewrite !elem_of_cons, !elem_of_nil. tauto.
    + by vm_compute.
Defined.

(** ** The verdict and its reason text *)

Lemma py_prefix_nonempty (prefix : string) (rest : pystr) :
  py prefix <> [] -> py prefix ++ rest <> [].
Proof. by destruct (py prefix). Qed.

Lemma join_nonempty sep r rs : r <> [] -> join sep (r :: rs) <> [].
Proof. intros Hr. simpl. destruct rs; [done |]. by destruct r. Qed.

Lemma elements_of_nonempty category : 2 ≤ length (elements_of category).
Proof.
  assert (Forall (fun l : list pystr => 2 ≤ length l) (CORE_ELEMENTS.*2)) as Hall
    by (apply (bool_decide_unpack _); vm_compute; exact I).
  apply (proj1 (Forall_forall _ _) Hall), elements_of_table.
Qed.

Lemma element_not_found_in_empty category e :
  e ∈ elements_of category -> element_found e [] = false.
Proof.
  assert (Forall (fun l : list pystr => Forall (fun e => element_found e [] = false) l)
            (CORE_ELEMENTS.*2)) as Hall
    by (apply (bool_decide_unpack _); vm_compute; exact I).
  intros He.
  pose proof (proj1 (Forall_forall _ _) Hall _ (elements_of_table category)) as Hl.
  by apply (proj1 (Forall_forall _ _) Hl).
Qed.

Lemma filter_none {A} (P : A -> Prop) `{!forall x, Decision (P x)} (l : list A) :
  (forall x, x ∈ l -> ~ P x) -> filter P l = [].
Proof.
  induction l as [|x l IH]; intros Hnone; [done |].
  rewrite filter_cons_False by (apply Hnone; left).
  apply IH. intros y Hy. apply Hnone. by right.
Qed.

Lemma filter_all {A} (P : A -> Prop) `{!forall x, Decision (P x)} (l : list A) :
  (forall x, x ∈ l -> P x) -> filter P l = l.
Proof.
  induction l as [|x l IH]; intros Hevery; [done |].
  rewrite filter_cons_True by (apply Hevery; left). f_equal.
  apply IH. intros y Hy. apply Hevery. by right.
Qed.

Lemma check_core_elements_empty_text category :
  check_core_elements category (Some []) = Ok (false, 0, elements_of category).
Proof.
  rewrite check_core_elements_present.
  rewrite (filter_none (fun e => element_found e [] = true)), filter_all.
  - pose proof (elements_of_nonempty category) as Hlen.
    rewrite bool_decide_false; [done |]. cbn [length]. lia.
  - intros e He. by rewrite (element_not_found_in_empty category).
  - intros e He. by rewrite (element_not_found_in_empty category).
Qed.

Lemma check_mandatory_empty_text :
  check_mandatory (Some []) = Ok (false, dict_keys MANDATORY_PATTERNS).
Proof. by vm_compute. Qed.

Lemma check_overlap_blank_survey report_summary survey_summary :
  survey_summary = None \/ survey_summary = Some [] ->
  check_overlap report_summary survey_summary = Ok (true, 0%Qc).
Proof.
  intros [-> | ->]; destruct report_summary as [report|]; try done.
  rewrite check_overlap_cases. by rewrite decide_True by by right.
Qed.

Section VerdictFacts.

Context {obj : Type}.
Variable to_datetime : pystr -> Exc datetime.
Variable Timestamp : obj -> Exc datetime.
Variable format_percent : Qc -> pystr.

Lemma check_delay_failed_reason (accident_time report_time : timecell obj)
    (survey_summary : cell) reason :
  check_delay to_datetime Timestamp accident_time report_time survey_summary =
    Ok (true, false, reason) ->
  reason <> [].
Proof.
  unfold check_delay, check_delay_body, try_except, mbind, exc_bind.
  destruct (time_isna accident_time || time_isna report_time); [done |].
  destruct (convert_time to_datetime Timestamp accident_time) as [a|]; [| done].
  destruct (convert_time to_datetime Timestamp report_time) as [r|]; [| done].
  destruct (days_le _ _); [done |].
  destruct survey_summary as [text|].
  - destruct (any_keyword_in DELAY_KEYWORDS text); [done |]. intros [= <-].
    by apply py_prefix_nonempty.
  - intros [= <-]. by apply py_prefix_nonempty.
Qed.

(** The reasons of a case from the outcomes of its four rules. *)
Lemma evaluate_reasons_of_outcomes (row : CaseRecord obj) mp mm dt dp dr cp cc cm op rate :
  check_mandatory (row_survey_summary row) = Ok (mp, mm) ->
  check_delay to_datetime Timestamp (row_accident_time row) (row_report_time row)
    (row_survey_summary row) = Ok (dt, dp, dr) ->
  check_core_elements (classify_insurance (row_insurance_type row))
    (row_survey_summary row) = Ok (cp, cc, cm) ->
  check_overlap (row_report_summary row) (row_survey_summary row) = Ok (op, rate) ->
  evaluate_reasons to_datetime Timestamp format_percent row =
    Ok ((if mp then [] else [mandatory_reason mm]) ++
        (if dt && negb dp then [dr] else []) ++
        (if cp then []
         else [core_reason
                 (Nat.min 3 (length (elements_of (classify_insurance (row_insurance_type row)))))
                 cc cm]) ++
        (if op then [] else [overlap_reason format_percent rate])).
Proof.
  intros Hm Hd Hc Ho.
  unfold evaluate_reasons, mbind, exc_bind. rewrite Hm, Hd, Hc, Ho.
  rewrite core_default, elements_of_default.
  by destruct mp, dt, dp, cp, op.
Qed.

(** X11: a case whose survey summary is absent or empty is unqualified
    whatever its other fields are: its first reason is the mandatory one
    naming all five items, the core-element reason follows, and only the
    reason of a triggered and failed delay rule may stand between them. *)
Theorem blank_summary_unqualified (row : CaseRecord obj) :
  row_survey_summary row = None \/ row_survey_summary row = Some [] ->
  exists delay_reasons core_count,
    evaluate_case to_datetime Timestamp format_percent row =
      Ok (UNQUALIFIED,
          join (py "；")
            (mandatory_reason (dict_keys MANDATORY_PATTERNS) :: delay_reasons ++
             [core_reason
                (Nat.min 3 (length (elements_of (classify_insurance (row_insurance_type row)))))
                core_count
                (elements_of (classify_insurance (row_insurance_type row)))])) /\
    length delay_reasons ≤ 1 /\ core_count = 0 /\
    (forall reason, reason ∈ delay_reasons ->
       check_delay to_datetime Timestamp (row_accident_time row) (row_report_time row)
         (row_survey_summary row) = Ok (true, false, reason)).
Proof.
  intros Hblank.
  destruct (check_delay_total to_datetime Timestamp (row_accident_time row)
              (row_report_time row) (row_survey_summary row)) as [[[dt dp] dr] Hd].
  assert (check_mandatory (row_survey_summary row) =
            Ok (false, dict_keys MANDATORY_PATTERNS)) as Hm.
  { destruct Hblank as [-> | ->]; [done | apply check_mandatory_empty_text]. }
  assert (check_core_elements (classify_insurance (row_insurance_type row))
            (row_survey_summary row) =
          Ok (false, 0, elements_of (classify_insurance (row_insurance_type row)))) as Hc.
  { destruct Hblank as [-> | ->];
      [apply check_core_elements_absent | apply check_core_elements_empty_text]. }
  pose proof (check_overlap_blank_survey (row_report_summary row) _ Hblank) as Ho.
  exists (if dt && negb dp then [dr] else []), 0.
  split; [| split; [destruct (dt && negb dp); simpl; lia | split; [done |]]].
  - unfold evaluate_case, mbind, exc_bind.
    rewrite (evaluate_reasons_of_outcomes row _ _ _ _ _ _ _ _ _ _ Hm Hd Hc Ho).
    by rewrite app_nil_r.
  - intros reason Hreason. rewrite Hd.
    destruct dt, dp; cbn [andb negb] in Hreason;
      try (by apply elem_of_nil in Hreason).
    by apply list_elem_of_singleton in Hreason as ->.
Qed.

(** X12: the reason text of a case is empty exactly when the case is
    qualified: the verdict is one of the two labels, a qualified case has
    no reason text, and an unqualified case always has some. *)
Theorem reason_text_empty_iff_qualified (row : CaseRecord obj) :
  exists verdict reason,
    evaluate_case to_datetime Timestamp format_percent row = Ok (verdict, reason) /\
    (verdict = QUALIFIED /\ reason = [] \/ verdict = UNQUALIFIED /\ reason <> []).
Proof.
  destruct (check_mandatory_total (row_survey_summary row)) as [[mp mm] Hm].
  destruct (check_delay_total to_datetime Timestamp (row_accident_time row)
              (row_report_time row) (row_survey_summary row)) as [[[dt dp] dr] Hd].
  destruct (check_core_elements_total (classify_insurance (row_insurance_type row))
              (row_survey_summary row)) as [[[cp cc] cm] Hc].
  destruct (check_overlap_total (row_report_summary row) (row_survey_summary row))
    as [[op rate] Ho].
  unfold evaluate_case, mbind, exc_bind.
  rewrite (evaluate_reasons_of_outcomes row _ _ _ _ _ _ _ _ _ _ Hm Hd Hc Ho).
  assert (mandatory_reason mm <> []) as Hr1 by by apply py_prefix_nonempty.
  assert (forall n, core_reason n cc cm <> []) as Hr3
    by (intros n; by apply py_prefix_nonempty).
  assert (overlap_reason format_percent rate <> []) as Hr4 by by apply py_prefix_nonempty.
  assert (dt = true -> dp = false -> dr <> []) as Hr2.
  { intros -> ->. by eapply check_delay_failed_reason. }
  set (reasons := _ ++ _ ++ _ ++ _).
  assert (Forall (fun r : pystr => r <> []) reasons) as Hall.
  { unfold reasons. rewrite !Forall_app. split_and!.
    - destruct mp; by repeat constructor.
    - destruct dt, dp; repeat constructor. by apply Hr2.
    - destruct cp; by repeat constructor.
    - destruct op; by repeat constructor. }
  destruct reasons as [|r rs].
  - eexists _, _. split; [done |]. by left.
  - eexists _, _. split; [done |]. right. split; [done |].
    apply join_nonempty. by apply Forall_cons in Hall as [? _].
Qed.

End VerdictFacts.

(** A case with no survey summary, reported nine days after the accident. *)
Lemma blank_summary_unqualified_witness :
  exists delay_reasons,
    evaluate_case day_to_datetime ns_Timestamp percent_truncated
      {| row_insurance_type := None;
         row_accident_time := TimeStr (py "1");
         row_report_time := TimeStr (py "10");
         row_report_summary := Some (py "仓库起火");
         row_survey_summary := None |} =
      Ok (UNQUALIFIED,
          join (py "；")
            (mandatory_reason (dict_keys MANDATORY_PATTERNS) :: delay_reasons ++
             [core_reason 2 0 (elements_of OTHER)])) /\
    length delay_reasons ≤ 1.
Proof.
  destruct (blank_summary_unqualified day_to_datetime ns_Timestamp percent_truncated
              {| row_insurance_type := None;
                 row_accident_time := TimeStr (py "1");
                 row_report_time := TimeStr (py "10");
                 row_report_summary := Some (py "仓库起火");
                 row_survey_summary := None |})
    as (delay_reasons & n & Heq & Hlen & -> & _); [by left |].
  exists delay_reasons. split; [exact Heq | exact Hlen].
Defined.

(** ** Counts and rates of the summary *)

Lemma sum_list_fmap_plus {A} (f g : A -> nat) (l : list A) :
  sum_list ((fun x => f x + g x) <$> l) = sum_list (f <$> l) + sum_list (g <$> l).
Proof. induction l as [|x l IH]; csimpl; lia. Qed.

Lemma sum_list_fmap_ext {A} (f g : A -> nat) (l : list A) :
  (forall x, x ∈ l -> f x = g x) -> sum_list (f <$> l) = sum_list (g <$> l).
Proof.
  induction l as [|x l IH]; intros Hfg; csimpl; [done |].
  rewrite (Hfg x) by left. rewrite IH; [done |]. intros y Hy. apply Hfg. by right.
Qed.

Lemma sum_list_fmap_zero {A} (l : list A) : sum_list ((fun _ => 0) <$> l) = 0.
Proof. induction l as [|x l IH]; csimpl; lia. Qed.

(** An institution is counted once in a list of distinct keys that has it. *)
Lemma sum_list_indicator (k0 : pystr) (keys : list pystr) :
  NoDup keys -> k0 ∈ keys ->
  sum_list ((fun k => if decide (k0 = k) then 1 else 0) <$> keys) = 1.
Proof.
  induction 1 as [|k keys Hnotin Hnd IH]; intros Hin; [by apply elem_of_nil in Hin |].
  csimpl. destruct (decide (k0 = k)) as [->|Hne].
  - rewrite (sum_list_fmap_ext _ (fun _ => 0)), sum_list_fmap_zero; [done |].
    intros k' Hk'. rewrite decide_False; [done |]. by intros ->.
  - apply elem_of_cons in Hin as [? | Hin]; [done |]. by rewrite IH.
Qed.

(** The counts of the institutions add up to the cases that have one. *)
Lemma sum_by_institution (Q : EvaluatedCase -> Prop) `{!forall c, Decision (Q c)}
    (keys : list pystr) (df : list EvaluatedCase) :
  NoDup keys ->
  (forall c k, c ∈ df -> case_institution c = Some k -> k ∈ keys) ->
  sum_list ((fun k => length (filter (fun c => case_institution c = Some k /\ Q c) df))
            <$> keys) =
  length (filter (fun c => is_Some (case_institution c) /\ Q c) df).
Proof.
  intros Hnd. induction df as [|c df IH]; intros Hkeys.
  - by rewrite sum_list_fmap_zero.
  - rewrite (sum_list_fmap_ext _
      (fun k => (if decide (case_institution c = Some k /\ Q c) then 1 else 0) +
                length (filter (fun c => case_institution c = Some k /\ Q c) df))).
    2:{ intros k _. rewrite filter_cons. by case_decide. }
    rewrite sum_list_fmap_plus, IH by (intros c' k Hc'; apply Hkeys; by right).
    destruct (decide (is_Some (case_institution c) /\ Q c)) as [[[k0 Hk0] HQ]|Hno].
    + rewrite (filter_cons_True (fun c => is_Some (case_institution c) /\ Q c))
        by (split; [by exists k0 | done]).
      rewrite (sum_list_fmap_ext _ (fun k => if decide (k0 = k) then 1 else 0)).
      * rewrite sum_list_indicator; [done | done |]. eapply Hkeys; [left | done].
      * intros k _. rewrite Hk0. apply decide_ext.
        split; [by intros [[= ->] _] | by intros ->].
    + rewrite (filter_cons_False (fun c => is_Some (case_institution c) /\ Q c)) by done.
      rewrite (sum_list_fmap_ext _ (fun _ => 0)), sum_list_fmap_zero; [done |].
      intros k _. rewrite decide_False; [done |]. intros [Hk HQ]. apply Hno.
      split; [by exists k | done].
Qed.

Lemma groupby_keys_cover df c k :
  c ∈ df -> case_institution c = Some k -> k ∈ groupby_keys df.
Proof. intros. apply elem_of_groupby_keys. eauto. Qed.

Lemma sum_cases_of df :
  sum_list (cases_of df <$> groupby_keys df) = length (with_institution df).
Proof.
  trans (sum_list ((fun k => length (filter (fun c => case_institution c = Some k /\ True) df))
                   <$> groupby_keys df)).
  - apply sum_list_fmap_ext. intros k _. unfold cases_of. f_equal.
    apply list_filter_iff. tauto.
  - rewrite (sum_by_institution (fun _ => True) (groupby_keys df) df
               (groupby_keys_nodup df) (groupby_keys_cover df)).
    unfold with_institution. f_equal. apply list_filter_iff. tauto.
Qed.

Lemma sum_qualified_of df :
  sum_list (qualified_of df <$> groupby_keys df) =
  length (qualified_cases (with_institution df)).
Proof.
  unfold qualified_of.
  rewrite (sum_by_institution (fun c => case_verdict c = QUALIFIED) (groupby_keys df) df
             (groupby_keys_nodup df) (groupby_keys_cover df)).
  unfold qualified_cases, with_institution. rewrite list_filter_filter. f_equal.
  apply list_filter_iff. tauto.
Qed.

Lemma sorted_groups_totals rt sv df :
  sort_contract sv ->
  sum_list (sum_total <$> sorted_groups rt sv df) = length (with_institution df) /\
  sum_list (sum_qualified <$> sorted_groups rt sv df) =
    length (qualified_cases (with_institution df)).
Proof.
  intros Hsv. rewrite (sorted_groups_rows rt sv Hsv), <- !list_fmap_compose.
  rewrite <- sum_cases_of, <- sum_qualified_of. split.
  - apply sum_list_fmap_ext. intros k _. unfold compose.
    by destruct (group_row_counts rt df k) as (_ & -> & _).
  - apply sum_list_fmap_ext. intros k _. unfold compose.
    by destruct (group_row_counts rt df k) as (_ & _ & ->).
Qed.

(** A batch has a group exactly when one of its cases has an institution. *)
Lemma sorted_groups_nonempty rt sv df :
  sort_contract sv -> with_institution df <> [] -> sorted_groups rt sv df <> [].
Proof.
  intros Hsv Hwith Hnil. apply Hwith.
  destruct (sorted_groups_totals rt sv df Hsv) as [Ht _].
  rewrite Hnil in Ht. by destruct (with_institution df).
Qed.

(** X13: on a batch in which some case has an institution, the summary
    has one row for each distinct institution, at least one, and the
    grand total; every institution row has at least one case and no more
    qualified cases than cases; the grand total counts the cases that
    have an institution, at least one, and the qualified ones among them,
    so a case whose institution is absent is counted nowhere. *)
Theorem summary_counts (round_tie_up format_tie_up : nat -> nat -> bool)
    (sort_values : list (nat * SummaryRow) -> list (nat * SummaryRow))
    (df : list EvaluatedCase) :
  sort_contract sort_values ->
  with_institution df <> [] ->
  exists groups total,
    create_summary_sheet round_tie_up format_tie_up sort_values df = groups ++ [total] /\
    groups <> [] /\
    length groups = length (remove_dups (omap case_institution df)) /\
    (forall g, g ∈ groups -> 1 ≤ sum_total g /\ sum_qualified g ≤ sum_total g) /\
    1 ≤ sum_total total /\
    sum_total total = length (with_institution df) /\
    sum_qualified total = length (qualified_cases (with_institution df)) /\
    sum_qualified total ≤ sum_total total /\ sum_total total ≤ length df.
Proof.
  intros Hsv Hwith.
  exists (sorted_groups round_tie_up sort_values df),
         (total_row format_tie_up (sorted_groups round_tie_up sort_values df)).
  destruct (sorted_groups_totals round_tie_up sort_values df Hsv) as [Ht Hq].
  split_and!; try done.
  - by apply sorted_groups_nonempty.
  - rewrite (sorted_groups_rows _ _ Hsv), length_fmap. unfold groupby_keys.
    by rewrite merge_sort_Permutation.
  - intros g (key & Hkey & ->)%(sorted_groups_elem_of _ _ _ _ Hsv).
    destruct (group_row_counts round_tie_up df key) as (_ & -> & ->).
    split; [by apply cases_of_pos |].
    unfold qualified_of, cases_of. apply filter_length_mono. tauto.
  - simpl. rewrite Ht. destruct (with_institution df); [done | simpl; lia].
  - simpl. rewrite Ht, Hq. unfold qualified_cases. apply length_filter.
  - simpl. rewrite Ht. unfold with_institution. apply length_filter.
Qed.

(** Three cases, one of them without institution. *)
Lemma summary_counts_witness :
  exists groups total,
    create_summary_sheet (fun _ _ => true) (fun _ _ => true) stable_sort_values
      [case_of "合肥" "合格"; {| case_institution := None; case_verdict := py "合格" |};
       case_of "合肥" "不合格"] = groups ++ [total] /\
    length groups = 1 /\ sum_total total = 2 /\ sum_qualified total = 1.
Proof.
  destruct (summary_counts (fun _ _ => true) (fun _ _ => true) stable_sort_values
              [case_of "合肥" "合格"; {| case_institution := None; case_verdict := py "合格" |};
               case_of "合肥" "不合格"] stable_sort_values_contract)
    as (groups & total & Heq & _ & Hlen & _ & _ & Ht & Hq & _); [by vm_compute |].
  exists groups, total. split; [exact Heq |].
  split; [by rewrite Hlen |]. split; [by rewrite Ht | by rewrite Hq].
Defined.

Lemma sort_key_bound institution : sort_key institution ≤ length INSTITUTION_ORDER.
Proof.
  destruct (decide (listed institution)) as [Hl|Hu].
  - apply sort_key_listed, lookup_lt_Some in Hl. lia.
  - by rewrite sort_key_unlisted.
Qed.

Lemma sort_key_listed_lt institution :
  listed institution <-> sort_key institution < length INSTITUTION_ORDER.
Proof.
  split.
  - by intros Hl%sort_key_listed%lookup_lt_Some.
  - intros Hlt. destruct (decide (listed institution)) as [|Hu]; [done |].
    rewrite sort_key_unlisted in Hlt by done. lia.
Qed.

(** X14: when at most one institution of the batch is outside the
    priority list, the summary does not depend on how the sort treats
    equal keys: any two sorts that return their input in ascending key
    order give the same summary. *)
Theorem summary_independent_of_sort (round_tie_up format_tie_up : nat -> nat -> bool)
    (sort_values sort_values' : list (nat * SummaryRow) -> list (nat * SummaryRow))
    (df : list EvaluatedCase) :
  sort_contract sort_values -> sort_contract sort_values' ->
  (forall c c' i i', c ∈ df -> c' ∈ df ->
     case_institution c = Some i -> case_institution c' = Some i' ->
     ~ listed i -> ~ listed i' -> i = i') ->
  create_summary_sheet round_tie_up format_tie_up sort_values df =
  create_summary_sheet round_tie_up format_tie_up sort_values' df.
Proof.
  intros Hsv Hsv' Hone. unfold create_summary_sheet.
  assert (sorted_groups round_tie_up sort_values df =
          sorted_groups round_tie_up sort_values' df) as ->; [| done].
  apply (StronglySorted_unique_strong
           (fun a b => sort_key (sum_institution a) ≤ sort_key (sum_institution b))).
  - intros x1 x2 (k1 & Hk1 & ->)%(sorted_groups_elem_of _ _ _ _ Hsv)
      (k2 & Hk2 & ->)%(sorted_groups_elem_of _ _ _ _ Hsv') H12 H21.
    destruct (group_row_counts round_tie_up df k1) as (E1 & _).
    destruct (group_row_counts round_tie_up df k2) as (E2 & _).
    rewrite E1, E2 in H12, H21.
    assert (sort_key k1 = sort_key k2) as Hkey by lia.
    assert (k1 = k2) as ->; [| done].
    destruct (decide (listed k1)) as [Hl1|Hu1].
    + assert (listed k2) as Hl2 by (apply sort_key_listed_lt; rewrite <- Hkey;
                                    by apply sort_key_listed_lt).
      apply sort_key_listed in Hl1, Hl2. rewrite Hkey in Hl1. congruence.
    + assert (~ listed k2) as Hu2.
      { intros Hl2%sort_key_listed_lt. rewrite <- Hkey in Hl2.
        by apply sort_key_listed_lt in Hl2. }
      apply elem_of_groupby_keys in Hk1 as (c1 & Hc1 & Hi1).
      apply elem_of_groupby_keys in Hk2 as (c2 & Hc2 & Hi2).
      by apply (Hone c1 c2).
  - by apply sorted_groups_sorted.
  - by apply sorted_groups_sorted.
  - by rewrite (sorted_groups_rows _ _ Hsv), (sorted_groups_rows _ _ Hsv').
Qed.

(** A sort that puts rows of equal key in the opposite order. *)
Lemma reverse_sort_values_contract :
  sort_contract (fun l => stable_sort_values (reverse l)).
Proof.
  destruct stable_sort_values_contract as [Hperm Hsorted]. split; intros l.
  - by rewrite Hperm, reverse_Permutation.
  - apply Hsorted.
Qed.

Lemma summary_independent_of_sort_witness :
  create_summary_sheet (fun _ _ => true) (fun _ _ => true) stable_sort_values
    [case_of "丙" "合格"; case_of "蚌埠" "不合格"; case_of "合肥" "合格"] =
  create_summary_sheet (fun _ _ => true) (fun _ _ => true)
    (fun l => stable_sort_values (reverse l))
    [case_of "丙" "合格"; case_of "蚌埠" "不合格"; case_of "合肥" "合格"].
Proof.
  apply summary_independent_of_sort;
    [apply stable_sort_values_contract | apply reverse_sort_values_contract |].
  intros c c' i i' Hc Hc' Hi Hi' Hu Hu'.
  assert (Forall (fun c : EvaluatedCase =>
            forall i, case_institution c = Some i -> ~ listed i -> i = py "丙")
            [case_of "丙" "合格"; case_of "蚌埠" "不合格"; case_of "合肥" "合格"]) as Hall.
  { repeat constructor; intros j [= <-] Hj; try done; destruct Hj;
      apply (bool_decide_unpack _); vm_compute; exact I. }
  rewrite Forall_forall in Hall.
  by rewrite (Hall c Hc i Hi Hu), (Hall c' Hc' i' Hi' Hu').
Defined.

(** The rate of a row with cases, with the side taken at a midpoint. *)
Lemma summary_row_rate rt ft sv df row :
  sort_contract sv ->
  row ∈ create_summary_sheet rt ft sv df -> 0 < sum_total row ->
  exists tie_up,
    sum_rate row =
      render_tenths (nearest_tenth tie_up (sum_qualified row) (sum_total row)) ++ py "%".
Proof.
  intros Hsv [Hrow | Hrow%list_elem_of_singleton]%elem_of_app Hpos.
  - apply (sorted_groups_elem_of _ _ _ _ Hsv) in Hrow as (key & Hkey & ->).
    exists rt. unfold group_row in *. cbn [sum_rate sum_qualified sum_total] in *.
    unfold series_rate. by destruct (count_cases (group_of df key)); [lia |].
  - subst row. exists ft. unfold total_row in *.
    cbn [sum_rate sum_qualified sum_total] in *. by rewrite decide_True by done.
Qed.

Lemma nearest_tenth_all tie_up t : 0 < t -> nearest_tenth tie_up t t = 1000.
Proof.
  intros Ht. unfold nearest_tenth.
  rewrite Nat.div_mul, Nat.Div0.mod_mul by lia. by rewrite decide_True by lia.
Qed.

Lemma nearest_tenth_none tie_up t : 0 < t -> nearest_tenth tie_up 0 t = 0.
Proof.
  intros Ht. unfold nearest_tenth.
  rewrite Nat.mul_0_r, Nat.Div0.div_0_l, Nat.Div0.mod_0_l. by rewrite decide_True by lia.
Qed.

Lemma render_tenths_not_bare n : render_tenths n ++ py "%" <> py "0%".
Proof.
  intros H. apply (f_equal length) in H. unfold render_tenths in H.
  rewrite !length_app in H. change (length (py "0%")) with 2 in H.
  change (length [ord "."]) with 1 in H. change (length (py "%")) with 1 in H.
  pose proof (str_of_nat_nonempty (n / 10)) as Hint.
  pose proof (str_of_nat_nonempty (n mod 10)) as Hfrac.
  destruct (str_of_nat (n / 10)), (str_of_nat (n mod 10)); simpl in H; try done. lia.
Qed.

(** A row without cases is the grand total of a batch in which no case has
    an institution, and then it is the only row. *)
Lemma summary_row_without_cases rt ft sv df row :
  sort_contract sv ->
  row ∈ create_summary_sheet rt ft sv df -> sum_total row = 0 ->
  with_institution df = [] /\ create_summary_sheet rt ft sv df = [row].
Proof.
  intros Hsv Hrow Hzero.
  destruct (sorted_groups_totals rt sv df Hsv) as [Ht _].
  unfold create_summary_sheet in *.
  apply elem_of_app in Hrow as [Hrow | Hrow%list_elem_of_singleton].
  - apply (sorted_groups_elem_of _ _ _ _ Hsv) in Hrow as (key & Hkey & ->).
    destruct (group_row_counts rt df key) as (_ & Hcases & _).
    pose proof (cases_of_pos _ _ Hkey). lia.
  - subst row. cbn [sum_total total_row] in Hzero. rewrite Ht in Hzero.
    assert (with_institution df = []) as Hnone by by destruct (with_institution df).
    split; [done |].
    destruct (sorted_groups rt sv df) as [|g groups] eqn:Hgroups; [done |].
    exfalso.
    assert (g ∈ sorted_groups rt sv df) as Hg by (rewrite Hgroups; left).
    apply (sorted_groups_elem_of _ _ _ _ Hsv) in Hg as (key & Hkey & ->).
    destruct (group_row_counts rt df key) as (_ & Hcases & _).
    pose proof (cases_of_pos _ _ Hkey). rewrite Hnone in Ht. csimpl in Ht.
    change (count_cases (group_of df key)) with (cases_of df key) in Ht. lia.
Qed.

(** X15: in a row with cases, institution row or grand total, the rate is
    ["100.0%"] when every case is qualified and ["0.0%"] when none is.
    The rate is the text ["0%"] exactly in a row without cases, and such
    a row is the grand total of a batch in which no case has an
    institution, where it is the only row of the summary. *)
Theorem summary_rate_extremes (round_tie_up format_tie_up : nat -> nat -> bool)
    (sort_values : list (nat * SummaryRow) -> list (nat * SummaryRow))
    (df : list EvaluatedCase) (row : SummaryRow) :
  sort_contract sort_values ->
  row ∈ create_summary_sheet round_tie_up format_tie_up sort_values df ->
  (0 < sum_total row ->
     (sum_qualified row = sum_total row -> sum_rate row = py "100.0%") /\
     (sum_qualified row = 0 -> sum_rate row = py "0.0%")) /\
  (sum_rate row = py "0%" <-> sum_total row = 0) /\
  (sum_total row = 0 ->
     with_institution df = [] /\
     create_summary_sheet round_tie_up format_tie_up sort_values df = [row]).
Proof.
  intros Hsv Hrow. split_and!.
  - intros Hpos.
    destruct (summary_row_rate _ _ _ _ _ Hsv Hrow Hpos) as [tie_up ->]. split.
    + intros ->. by rewrite nearest_tenth_all.
    + intros ->. by rewrite nearest_tenth_none.
  - split.
    + intros Hrate. destruct (decide (sum_total row = 0)) as [|Hne]; [done |].
      destruct (summary_row_rate _ _ _ _ _ Hsv Hrow) as [tie_up Heq]; [lia |].
      rewrite Heq in Hrate. by apply render_tenths_not_bare in Hrate.
    + intros Hzero.
      destruct (summary_row_without_cases _ _ _ _ _ Hsv Hrow Hzero) as [_ Hsheet].
      unfold create_summary_sheet in Hsheet.
      destruct (sorted_groups round_tie_up sort_values df) as [|g groups] eqn:Hgroups.
      * injection Hsheet as <-. by vm_compute.
      * exfalso. apply (f_equal length) in Hsheet. rewrite length_app in Hsheet.
        simpl in Hsheet. lia.
  - by apply summary_row_without_cases.
Qed.

(** An institution with two unqualified cases and one with a qualified
    case; and a batch whose only case has no institution. *)
Lemma summary_rate_extremes_witness :
  sum_rate <$>
    create_summary_sheet (fun _ _ => true) (fun _ _ => true) stable_sort_values
      [case_of "合肥" "不合格"; case_of "芜湖" "合格"; case_of "合肥" "不合格"] =
  [py "0.0%"; py "100.0%"; py "33.3%"] /\
  sum_rate <$>
    create_summary_sheet (fun _ _ => true) (fun _ _ => true) stable_sort_values
      [ {| case_institution := None; case_verdict := py "合格" |} ] =
  [py "0%"].
Proof.
  split.
  - pose (df := [case_of "合肥" "不合格"; case_of "芜湖" "合格"; case_of "合肥" "不合格"]).
    pose (hefei := {| sum_institution := py "合肥"; sum_total := 2; sum_qualified := 0;
                      sum_rate := py "0.0%" |}).
    assert (hefei ∈ create_summary_sheet (fun _ _ => true) (fun _ _ => true)
                      stable_sort_values df) as Hrow by (vm_compute; left).
    destruct (summary_rate_extremes (fun _ _ => true) (fun _ _ => true)
                stable_sort_values df hefei stable_sort_values_contract Hrow) as [H _].
    destruct H as [_ H]; [simpl; lia |].
    specialize (H eq_refl). by vm_compute.
  - set (lone := [ {| case_institution := None; case_verdict := py "合格" |} ]).
    pose (total := total_row (fun _ _ => true)
                     (sorted_groups (fun _ _ => true) stable_sort_values lone)).
    assert (total ∈ create_summary_sheet (fun _ _ => true) (fun _ _ => true)
                      stable_sort_values lone) as Hrow by (vm_compute; left).
    destruct (summary_rate_extremes (fun _ _ => true) (fun _ _ => true)
                stable_sort_values lone total stable_sort_values_contract Hrow)
      as (_ & [_ Hrate] & Hsheet).
    destruct (Hsheet eq_refl) as [_ ->]. cbn [fmap list_fmap]. by rewrite (Hrate eq_refl).
Defined.

(** ** The batch run *)

Lemma filter_fmap_length {A B} (f : A -> B) (P : B -> Prop) `{!forall y, Decision (P y)}
    (l : list A) :
  length (filter P (f <$> l)) = length (filter (fun x => P (f x)) l).
Proof.
  induction l as [|x l IH]; [done |]. rewrite fmap_cons.
  destruct (decide (P (f x))).
  - rewrite (filter_cons_True P), (filter_cons_True (fun x => P (f x))) by done.
    simpl. by rewrite IH.
  - by rewrite (filter_cons_False P), (filter_cons_False (fun x => P (f x))) by done.
Qed.

Section BatchFacts.

Context {obj : Type}.
Variable to_datetime : pystr -> Exc datetime.
Variable Timestamp : obj -> Exc datetime.
Variable format_percent : Qc -> pystr.
Variable round_tie_up : nat -> nat -> bool.
Variable format_tie_up : nat -> nat -> bool.
Variable sort_values : list (nat * SummaryRow) -> list (nat * SummaryRow).

Lemma evaluate_case_total (row : CaseRecord obj) :
  exists verdict reason,
    evaluate_case to_datetime Timestamp format_percent row = Ok (verdict, reason).
Proof.
  destruct (check_mandatory_total (row_survey_summary row)) as [[mp mm] Hm].
  destruct (check_delay_total to_datetime Timestamp (row_accident_time row)
              (row_report_time row) (row_survey_summary row)) as [[[dt dp] dr] Hd].
  destruct (check_core_elements_total (classify_insurance (row_insurance_type row))
              (row_survey_summary row)) as [[[cp cc] cm] Hc].
  destruct (check_overlap_total (row_report_summary row) (row_survey_summary row))
    as [[op rate] Ho].
  unfold evaluate_case, mbind, exc_bind.
  rewrite (evaluate_reasons_of_outcomes _ _ _ row _ _ _ _ _ _ _ _ _ _ Hm Hd Hc Ho).
  destruct (_ ++ _); eauto.
Qed.

(** The case table has the input rows in their order, each with the
    verdict and the reason of its own evaluation. *)
Lemma evaluate_rows_rows (df : list (InputRow obj)) :
  exists cases,
    evaluate_rows to_datetime Timestamp format_percent df = Ok cases /\
    out_input <$> cases = df /\
    forall row, row ∈ cases ->
      evaluate_case to_datetime Timestamp format_percent (in_case (out_input row)) =
        Ok (out_verdict row, out_reason row) /\
      out_category row = classify_insurance (row_insurance_type (in_case (out_input row))).
Proof.
  induction df as [|row df (cases & Heq & Hin & Hall)].
  - exists []. split_and!; [done.. |]. by intros row ?%elem_of_nil.
  - destruct (evaluate_case_total (in_case row)) as (verdict & reason & Hcase).
    eexists (_ :: cases). split_and!.
    + cbn [evaluate_rows]. unfold mbind, exc_bind. by rewrite Hcase, Heq.
    + by rewrite fmap_cons, Hin.
    + intros r [-> | Hr]%elem_of_cons; [done | by apply Hall].
Qed.

(** X16: the batch run never raises; the case table has the input rows in
    their order, each with the verdict and reason of its own evaluation;
    the counts of the closing message are the number of rows and the
    number of qualified rows; the grand total of the summary never
    exceeds them, and equals them when every row has an institution (a
    row without institution is counted in the message and not in the
    summary). *)
Theorem main_batch_counts (df : list (InputRow obj)) :
  sort_contract sort_values ->
  exists groups total cases,
    main_tables to_datetime Timestamp format_percent round_tie_up format_tie_up
      sort_values df = Ok (groups ++ [total], cases) /\
    out_input <$> cases = df /\
    (forall row, row ∈ cases ->
       evaluate_case to_datetime Timestamp format_percent (in_case (out_input row)) =
         Ok (out_verdict row, out_reason row)) /\
    (main_counts cases).1 = length df /\
    sum_total total ≤ (main_counts cases).1 /\
    sum_qualified total ≤ (main_counts cases).2 /\
    ((forall row, row ∈ df -> is_Some (in_institution row)) ->
       (sum_total total, sum_qualified total) = main_counts cases).
Proof.
  intros Hsv. destruct (evaluate_rows_rows df) as (cases & Heq & Hin & Hall).
  set (evaluated := summary_input <$> cases).
  exists (sorted_groups round_tie_up sort_values evaluated),
         (total_row format_tie_up (sorted_groups round_tie_up sort_values evaluated)),
         cases.
  destruct (sorted_groups_totals round_tie_up sort_values evaluated Hsv) as [Ht Hq].
  assert (length (qualified_cases evaluated) =
          length (filter (fun row => out_verdict row = QUALIFIED) cases)) as Hqual.
  { unfold qualified_cases, evaluated.
    by rewrite (filter_fmap_length summary_input (fun c => case_verdict c = QUALIFIED)). }
  assert (length evaluated = length cases) as Hlen by (unfold evaluated; by rewrite length_fmap).
  split_and!.
  - unfold main_tables, mbind, exc_bind. by rewrite Heq.
  - done.
  - intros row Hrow. by apply Hall.
  - cbn [fst main_counts]. by rewrite <- Hin, length_fmap.
  - cbn [fst main_counts sum_total total_row]. rewrite Ht, <- Hlen.
    unfold with_institution. apply length_filter.
  - cbn [snd main_counts sum_qualified total_row]. rewrite Hq, <- Hqual.
    unfold qualified_cases, with_institution. rewrite list_filter_filter.
    apply filter_length_mono. tauto.
  - intros Hinst.
    assert (with_institution evaluated = evaluated) as Hwith.
    { unfold with_institution. apply filter_all.
      intros c (row & -> & Hrow)%list_elem_of_fmap. simpl. apply Hinst.
      rewrite <- Hin. apply list_elem_of_fmap. by exists row. }
    unfold main_counts. cbn [sum_total sum_qualified total_row].
    by rewrite Ht, Hq, Hwith, Hqual, Hlen.
Qed.

End BatchFacts.

(** Two rows, one of them without institution. *)
Lemma main_batch_counts_witness :
  exists groups total cases,
    main_tables day_to_datetime ns_Timestamp percent_truncated
      (fun _ _ => true) (fun _ _ => true) stable_sort_values
      [sample_input (Some "合肥"%string) "到场查看"; sample_input None "到场查看"] =
      Ok (groups ++ [total], cases) /\
    (main_counts cases).1 = 2 /\ sum_total total = 1.
Proof.
  destruct (main_batch_counts day_to_datetime ns_Timestamp percent_truncated
              (fun _ _ => true) (fun _ _ => true) stable_sort_values
              [sample_input (Some "合肥"%string) "到场查看"; sample_input None "到场查看"]
              stable_sort_values_contract)
    as (groups & total & cases & Heq & _ & _ & Hn & _).
  exists groups, total, cases. split; [exact Heq |]. split; [exact Hn |].
  vm_compute in Heq. injection Heq as Hsummary _.
  destruct groups as [|g1 [|g2 groups]]; try discriminate Hsummary.
  - by injection Hsummary as _ <-.
  - exfalso. injection Hsummary as _ _ Hrest. by destruct groups.
Defined.

(** ** The output file *)

Lemma rfind_absent c s : c ∉ s -> rfind c s = None.
Proof.
  induction s as [|x s IH]; [done |]. intros [Hne Hs]%not_elem_of_cons.
  simpl. rewrite IH by done. destruct (N.eqb_spec x c); [congruence | done].
Qed.

Lemma rfind_last c a b : c ∉ b -> rfind c (a ++ c :: b) = Some (length a).
Proof.
  intros Hb. induction a as [|x a IH]; simpl.
  - by rewrite (rfind_absent _ _ Hb), N.eqb_refl.
  - by rewrite IH.
Qed.

Lemma rfind_lt c s i : rfind c s = Some i -> i < length s.
Proof.
  revert i. induction s as [|x s IH]; intros i; simpl; [done |].
  destruct (rfind c s) as [k|].
  - intros [= <-]. specialize (IH k eq_refl). lia.
  - destruct (x =? c)%N; [| done]. intros [= <-]. lia.
Qed.

(** A name built from the input name itself, or from the input name cut
    at its last dot, is not the input name. *)
Lemma output_of_stem_differs (input_name stem : pystr) :
  stem = input_name \/
  (exists i, rfind (ord ".") input_name = Some i /\ stem = take i input_name) ->
  py "判定结果_" ++ stem ++ py ".xlsx" <> input_name.
Proof.
  assert (length (py "判定结果_") = 5) as Hprefix by by vm_compute.
  assert (forall s, length (py "判定结果_" ++ s ++ py ".xlsx") = length s + 10) as Hlen.
  { intros s. rewrite !length_app, Hprefix. change (length (py ".xlsx")) with 5. lia. }
  intros [-> | (i & Hfind & ->)] Heq.
  - apply (f_equal length) in Heq. rewrite Hlen in Heq. lia.
  - assert (rfind (ord ".") (py "判定结果_" ++ take i input_name ++ py ".xlsx") =
            Some (5 + i)) as Hout.
    { change (py ".xlsx") with (ord "." :: py "xlsx"). rewrite app_assoc, rfind_last.
      - rewrite length_app, Hprefix, length_take. apply rfind_lt in Hfind. f_equal. lia.
      - apply (bool_decide_unpack _). vm_compute. exact I. }
    rewrite Heq, Hfind in Hout. injection Hout. lia.
Qed.

(** X17: the output file is never the input file: the name built from
    the stem of the input name differs from the input name, whatever that
    name is, so the results are never written over the input.  This does
    not depend on which dots start a suffix: it holds for every stem that
    is the input name or the input name cut at its last dot. *)
Theorem output_never_input (input_name : pystr) :
  output_name input_name <> input_name /\
  (forall stem,
     stem = input_name \/
     (exists i, rfind (ord ".") input_name = Some i /\ stem = take i input_name) ->
     py "判定结果_" ++ stem ++ py ".xlsx" <> input_name).
Proof.
  split; [| apply output_of_stem_differs].
  unfold output_name, path_stem. apply output_of_stem_differs.
  destruct (rfind (ord ".") input_name) as [i|] eqn:Hfind; [| by left].
  case_decide; [right; by exists i | by left].
Qed.

(** A name with a trailing dot, with the dot kept in the stem and with the
    dot taken as a suffix. *)
Lemma output_never_input_witness :
  output_name (py "案件.") = py "判定结果_案件..xlsx" /\
  py "判定结果_案件.xlsx" <> py "案件.".
Proof.
  split; [by vm_compute |].
  destruct (output_never_input (py "案件.")) as [_ H].
  apply (H (py "案件")). right. exists 2. by vm_compute.
Defined.

(** ** Column widths *)

Lemma column_max_length_spec column max_length :
  max_length ≤ column_max_length column max_length /\
  (forall v, v ∈ column -> cell_length v ≤ column_max_length column max_length) /\
  (column_max_length column max_length = max_length \/
   exists v, v ∈ column /\ column_max_length column max_length = cell_length v).
Proof.
  revert max_length. induction column as [|value rest IH]; intros max_length; simpl.
  - split_and!; [done | by intros v ?%elem_of_nil | by left].
  - destruct (IH (if decide (max_length < cell_length value)
                  then cell_length value else max_length)) as (Hle & Hall & Hattained).
    split_and!.
    + case_decide; lia.
    + intros v [-> | Hv]%elem_of_cons; [case_decide; lia | by apply Hall].
    + destruct Hattained as [Heq | (v & Hv & Heq)].
      * case_decide; [right | by left].
        exists value. split; [left | done].
      * right. exists v. split; [by right | done].
Qed.

(** X18: the width given to a column is between 2 and 50; every cell
    whose text has at most 48 characters gets its length plus 2; and the
    width is 2, 50, or the length of some cell of the column plus 2.  A
    cell whose value is false in a test (empty, 0) counts as of length 0. *)
Theorem adjusted_width_bounds (column : list xl_value) :
  2 ≤ adjusted_width column ≤ 50 /\
  (forall v, v ∈ column ->
     (xl_truthy v = false -> cell_length v = 0) /\
     (cell_length v ≤ 48 -> cell_length v + 2 ≤ adjusted_width column)) /\
  (adjusted_width column = 2 \/ adjusted_width column = 50 \/
   exists v, v ∈ column /\ adjusted_width column = cell_length v + 2).
Proof.
  unfold adjusted_width.
  destruct (column_max_length_spec column 0) as (_ & Hall & Hattained).
  split_and!; [lia | lia | |].
  - intros v Hv. split.
    + intros Hfalse. unfold cell_length. by rewrite Hfalse.
    + intros Hshort. specialize (Hall v Hv). lia.
  - destruct Hattained as [-> | (v & Hv & ->)]; [by left |].
    destruct (decide (cell_length v + 2 ≤ 50)).
    + right. right. exists v. split; [done | lia].
    + right. left. lia.
Qed.
